(** * ranks.py: average VALORANT rank of a five-player team

    A shallow embedding of [src/ranks.py] and the properties of its
    normaliser, token parser, scale mapper and aggregator.

    Conventions of the embedding:
    - a Python [str] is the list of its Unicode code points ([pystr]);
      literals are written in UTF-8 and decoded by [u];
    - a Python [int] is a [Z];
    - a Python [float] is an IEEE 754 binary64 value, a [spec_float] used
      with precision 53 and maximal exponent 1024;
    - a call that may raise returns a [result]: [Ok v] or [Raise e];
    - the dictionaries [RU_NAME] and [ALIAS_TO_KEY] are finite maps. *)

From Stdlib Require Import ZArith NArith String Ascii List Lia.
From Stdlib Require Import DecimalString QArith Qround.
From Stdlib Require Import Floats.SpecFloat.
From stdpp Require Import base numbers list strings gmap.

Open Scope Z_scope.

(* ===================================================================== *)
(** ** Python values: strings, exceptions, results                         *)
(* ===================================================================== *)

Abbreviation pystr := (list N).

(** UTF-8 decoding of a literal, used only to write the string constants
    of the source the way the source writes them. *)
Fixpoint utf8_decode (bs : list N) : pystr :=
  match bs with
  | [] => []
  | b0 :: r0 =>
    if (b0 <? 0x80)%N then b0 :: utf8_decode r0
    else if (b0 <? 0xE0)%N then
      match r0 with
      | b1 :: r1 =>
        (N.land b0 0x1F * 0x40 + N.land b1 0x3F)%N :: utf8_decode r1
      | _ => []
      end
    else if (b0 <? 0xF0)%N then
      match r0 with
      | b1 :: b2 :: r2 =>
        (N.land b0 0x0F * 0x1000 + N.land b1 0x3F * 0x40
         + N.land b2 0x3F)%N :: utf8_decode r2
      | _ => []
      end
    else
      match r0 with
      | b1 :: b2 :: b3 :: r3 =>
        (N.land b0 0x07 * 0x40000 + N.land b1 0x3F * 0x1000
         + N.land b2 0x3F * 0x40 + N.land b3 0x3F)%N :: utf8_decode r3
      | _ => []
      end
  end.

Definition u (s : string) : pystr :=
  utf8_decode (map N_of_ascii (list_ascii_of_string s)).

Inductive exn : Type :=
  | ValueError (msg : pystr)
  | TypeError
  | KeyError (key : string)
  | IndexError
  | OverflowError
  | ZeroDivisionError.

Inductive result (A : Type) : Type :=
  | Ok (a : A)
  | Raise (e : exn).
Arguments Ok {A} a.
Arguments Raise {A} e.

#[global] Instance result_ret : MRet result := fun A a => Ok a.
#[global] Instance result_bind : MBind result := fun A B f m =>
  match m with
  | Ok a => f a
  | Raise e => Raise e
  end.

Definition is_ok {A} (r : result A) : bool :=
  match r with Ok _ => true | Raise _ => false end.

(** [str(n)] for an [int]. *)
Definition py_str_int (n : Z) : pystr :=
  map N_of_ascii (list_ascii_of_string (NilZero.string_of_int (Z.to_int n))).

(* ===================================================================== *)
(** ** The string methods the normaliser calls                            *)
(* ===================================================================== *)

Module Unicode.

(** White space in the sense of [str.strip()] and [str.isspace()]. *)
Definition is_space (c : N) : bool :=
  ((0x09 <=? c) && (c <=? 0x0D) || (0x1C <=? c) && (c <=? 0x20)
   || (c =? 0x85) || (c =? 0xA0) || (c =? 0x1680)
   || (0x2000 <=? c) && (c <=? 0x200A)
   || (c =? 0x2028) || (c =? 0x2029) || (c =? 0x202F)
   || (c =? 0x205F) || (c =? 0x3000))%N.

(** Lower-casing of one code point. The Unicode case table is given for
    the blocks the alias table is written in: Basic Latin, Latin-1
    Supplement and Cyrillic U+0400..U+042F. Other code points are left
    as they are. *)
Definition lower_cp (c : N) : N :=
  (if (0x41 <=? c) && (c <=? 0x5A) then c + 0x20
   else if (0xC0 <=? c) && (c <=? 0xDE) && negb (c =? 0xD7) then c + 0x20
   else if (0x400 <=? c) && (c <=? 0x40F) then c + 0x50
   else if (0x410 <=? c) && (c <=? 0x42F) then c + 0x20
   else c)%N.

Fixpoint lstrip (s : pystr) : pystr :=
  match s with
  | c :: r => if is_space c then lstrip r else s
  | [] => []
  end.

Definition rstrip (s : pystr) : pystr := rev (lstrip (rev s)).

Definition strip (s : pystr) : pystr := rstrip (lstrip s).

Definition lower (s : pystr) : pystr := map lower_cp s.

(** [s.replace(a, b)] for one-character [a] and [b]. *)
Definition replace1 (a b : N) (s : pystr) : pystr :=
  map (fun c => if (c =? a)%N then b else c) s.

End Unicode.

(* ===================================================================== *)
(** ** binary64 arithmetic                                                 *)
(* ===================================================================== *)

Module Float.

Definition prec : Z := 53.
Definition emax : Z := 1024.

Definition add : spec_float -> spec_float -> spec_float := SFadd prec emax.
Definition div : spec_float -> spec_float -> spec_float := SFdiv prec emax.

(** The float literal [m * 2^e]. *)
Definition lit (m e : Z) : spec_float := binary_normalize prec emax m e false.

(** Conversion of an [int] operand of a float operation. *)
Definition of_int (n : Z) : result spec_float :=
  match lit n 0 with
  | S754_infinity _ => Raise OverflowError
  | x => Ok x
  end.

Definition is_zero (x : spec_float) : bool :=
  match x with S754_zero _ => true | _ => false end.

(** [n / y] for an [int] [n] and a [float] [y]. *)
Definition int_truediv (n : Z) (y : spec_float) : result spec_float :=
  x ← of_int n;
  if is_zero y then Raise ZeroDivisionError else Ok (div x y).

(** [int(x)]: truncation toward zero. *)
Definition to_int (x : spec_float) : result Z :=
  match x with
  | S754_zero _ => Ok 0
  | S754_infinity _ => Raise OverflowError
  | S754_nan => Raise (ValueError (u "cannot convert float NaN to integer"))
  | S754_finite s m e =>
    let a := if (0 <=? e) then Z.shiftl (Z.pos m) e
             else Z.shiftr (Z.pos m) (- e) in
    Ok (if s then - a else a)
  end.

(** The exact rational value of a finite float. *)
Definition to_Q (x : spec_float) : Q :=
  match x with
  | S754_finite s m e =>
    let a := if s then Z.neg m else Z.pos m in
    if (0 <=? e) then inject_Z (a * 2 ^ e)
    else Qmake a (Z.to_pos (2 ^ (- e)))
  | _ => 0%Q
  end.

Definition is_finite (x : spec_float) : bool :=
  match x with
  | S754_zero _ | S754_finite _ _ _ => true
  | _ => false
  end.


End Float.

(* ===================================================================== *)
(** ** Module constants                                                    *)
(* ===================================================================== *)

Definition ORDER : list string :=
  ["iron"; "bronze"; "silver"; "gold"; "platinum"; "diamond"; "ascendant";
   "immortal"]%string.

Definition RU_NAME : gmap string pystr :=
  list_to_map
    [("iron", u "Железо");
     ("bronze", u "Бронза");
     ("silver", u "Серебро");
     ("gold", u "Золото");
     ("platinum", u "Платина");
     ("diamond", u "Алмаз");
     ("ascendant", u "Асцендант");
     ("immortal", u "Иммортал");
     ("radiant", u "Радиант")]%string.

Definition MAX_WITHOUT_RADIANT : Z := 24.
Definition RADIANT_VALUE : Z := 25.
Definition DEFAULT_INCLUDE_RADIANT : bool := true.

(** The alias sets, in the order the source lists them. *)
Definition ALIASES : list (string * list pystr) :=
  [("iron", [u "железо"; u "iron"; u "ж"]);
   ("bronze", [u "бронза"; u "bronze"; u "б"]);
   ("silver", [u "серебро"; u "silver"; u "с"]);
   ("gold", [u "золото"; u "голда"; u "gold"; u "г"]);
   ("platinum", [u "платина"; u "platinum"; u "п"; u "плат"]);
   ("diamond", [u "алмаз"; u "даймонд"; u "diamond"; u "д"]);
   ("ascendant", [u "асцендант"; u "аскедант"; u "асцедант"; u "ascendant";
                  u "а"; u "аск"; u "асц"; u "asc"]);
   ("immortal", [u "иммортал"; u "immortal"; u "иммо"; u "им"; u "и"]);
   ("radiant", [u "радиант"; u "radiant"; u "рад"; u "r"])]%string.

(** The two nested [for] loops that fill [ALIAS_TO_KEY]. *)
Definition ALIAS_TO_KEY : gmap pystr string :=
  foldl (fun m '(key, names) => foldl (fun m nm => <[nm := key]> m) m names)
        ∅ ALIASES.

(* ===================================================================== *)
(** ** List and dictionary accesses that may raise                         *)
(* ===================================================================== *)

Definition str_of_key (key : string) : pystr :=
  map N_of_ascii (list_ascii_of_string key).

(** [l.index(x)]: position of the first occurrence. The message of the
    ValueError is written for a key that [repr] puts between single quotes
    without escapes; the properties below do not depend on its text. *)
Fixpoint index_from (l : list string) (x : string) (i : Z) : option Z :=
  match l with
  | [] => None
  | y :: r => if decide (y = x) then Some i else index_from r x (i + 1)
  end.

Definition list_index (l : list string) (x : string) : result Z :=
  match index_from l x 0 with
  | Some i => Ok i
  | None => Raise (ValueError (u "'" ++ str_of_key x ++ u "' is not in list"))
  end.

(** [l[i]], with Python's negative indices. *)
Definition list_getitem {A} (l : list A) (i : Z) : result A :=
  let n := Z.of_nat (length l) in
  let j := if i <? 0 then i + n else i in
  if (j <? 0) || (n <=? j) then Raise IndexError
  else match l !! Z.to_nat j with
       | Some a => Ok a
       | None => Raise IndexError
       end.

(** [d[k]]. *)
Definition dict_getitem {V} (d : gmap string V) (k : string) : result V :=
  match d !! k with
  | Some v => Ok v
  | None => Raise (KeyError k)
  end.

(** [int(tier)] for an [Optional[int]]. *)
Definition int_of_optional (tier : option Z) : result Z :=
  match tier with
  | Some t => Ok t
  | None => Raise TypeError
  end.

(** An [Optional[int]] inside an f-string. *)
Definition fmt_optional (tier : option Z) : pystr :=
  match tier with
  | Some t => py_str_int t
  | None => u "None"
  end.

(* ===================================================================== *)
(** ** Error messages                                                      *)
(* ===================================================================== *)

Definition msg_unrecognized (original : pystr) : pystr :=
  u "Не удалось распознать ранг: «" ++ original ++ u "». "
  ++ u "Поддерживаемые примеры: «алмаз 1», «diamond2», «г1», «ascendant 3», «иммо2», «radiant».".

Definition msg_missing_tier (ru_base : pystr) : pystr :=
  u "Для ранга «" ++ ru_base ++ u "» требуется подуровень 1|2|3. "
  ++ u "Например: «" ++ Unicode.lower ru_base ++ u " 1».".

Definition msg_invalid_tier (ru_base : pystr) (tier : Z) : pystr :=
  u "Неверный подуровень для «" ++ ru_base ++ u "»: " ++ py_str_int tier
  ++ u ". Допустимо: 1, 2 или 3.".

Definition msg_wrong_count (n : nat) : pystr :=
  u "Ожидалось ровно 5 званий, получено: " ++ py_str_int (Z.of_nat n) ++ u ".".

(* ===================================================================== *)
(** ** Token normaliser and token parser                                   *)
(* ===================================================================== *)

(** The character class [[ \t\-\._]]. *)
Definition is_separator (c : N) : bool :=
  ((c =? 0x20) || (c =? 0x09) || (c =? 0x2D) || (c =? 0x2E) || (c =? 0x5F))%N.

(** [re.sub(r"[ \t\-\._]+", "", s)]. *)
Definition remove_separators (s : pystr) : pystr :=
  filter (fun c => is_separator c = false) s.

Definition _clean_token (s : pystr) : pystr :=
  let s := Unicode.replace1 0x451 0x435 (Unicode.lower (Unicode.strip s)) in
  remove_separators s.

(** The character class [[123]], with the digit's value. *)
Definition digit123 (c : N) : option Z :=
  if (c =? 0x31)%N then Some 1
  else if (c =? 0x32)%N then Some 2
  else if (c =? 0x33)%N then Some 3
  else None.

(** [re.search(r"([123])$", token)], returning [int(m.group(1))]. The
    anchor [$] matches at the end of the string and also just before a
    line feed that ends the string. *)
Definition search_tier (token : pystr) : option Z :=
  match rev token with
  | [] => None
  | c :: before =>
    match digit123 c with
    | Some t => Some t
    | None =>
      if (c =? 0x0A)%N then
        match before with
        | d :: _ => digit123 d
        | [] => None
        end
      else None
    end
  end.

Definition _parse_rank_token (raw : pystr)
  : result (string * option Z * pystr) :=
  let original := raw in
  let token := _clean_token raw in
  let m := search_tier token in
  let tier := m in
  let core := if m is Some _ then removelast token else token in
  match ALIAS_TO_KEY !! core with
  | None => Raise (ValueError (msg_unrecognized original))
  | Some key =>
    if decide (key = ""%string)
    then Raise (ValueError (msg_unrecognized original))
    else
      ru_base ← dict_getitem RU_NAME key;
      if decide (key ≠ "radiant"%string) then
        match tier with
        | None => Raise (ValueError (msg_missing_tier ru_base))
        | Some t =>
          if negb ((t =? 1) || (t =? 2) || (t =? 3))
          then Raise (ValueError (msg_invalid_tier ru_base t))
          else Ok (key, Some t, ru_base)
        end
      else Ok (key, None, ru_base)
  end.

(* ===================================================================== *)
(** ** Scale mapper                                                        *)
(* ===================================================================== *)

Definition _rank_to_number (key : string) (tier : option Z)
    (include_radiant : bool) : result Z :=
  if decide (key = "radiant"%string) then
    Ok (if include_radiant then RADIANT_VALUE else MAX_WITHOUT_RADIANT)
  else
    i ← list_index ORDER key;
    t ← int_of_optional tier;
    Ok (i * 3 + t).

Definition _number_to_ru (num : Z) (include_radiant : bool) : result pystr :=
  let max_value :=
    if include_radiant then RADIANT_VALUE else MAX_WITHOUT_RADIANT in
  let num := if num <? 1 then 1 else num in
  let num := if max_value <? num then max_value else num in
  if include_radiant && (num =? RADIANT_VALUE) then
    dict_getitem RU_NAME "radiant"
  else
    let i := (num - 1) `div` 3 in
    let tier := (num - 1) `mod` 3 + 1 in
    key ← list_getitem ORDER i;
    name ← dict_getitem RU_NAME key;
    Ok (name ++ u " " ++ py_str_int tier).

(* ===================================================================== *)
(** ** Aggregator                                                          *)
(* ===================================================================== *)

Definition _round_half_up (x : spec_float) : result Z :=
  Float.to_int (Float.add x (Float.lit 1 (-1))).

Definition sum (values : list Z) : Z := foldl Z.add 0 values.

(** The state of the [for raw in ranks] loop. *)
Record loop_state : Type := LoopState {
  parsed : list (string * option Z * Z);
  values : list Z;
  norm_ru : list pystr;
}.

Definition loop_body (include_radiant : bool) (st : loop_state) (raw : pystr)
  : result loop_state :=
  '(key, tier, ru_base) ← _parse_rank_token raw;
  val ← _rank_to_number key tier include_radiant;
  name ← (if decide (key = "radiant"%string)
          then dict_getitem RU_NAME "radiant"
          else Ok (ru_base ++ u " " ++ fmt_optional tier));
  Ok {| parsed := parsed st ++ [(key, tier, val)];
        values := values st ++ [val];
        norm_ru := norm_ru st ++ [name] |}.

Fixpoint loop (include_radiant : bool) (ranks : list pystr) (st : loop_state)
  : result loop_state :=
  match ranks with
  | [] => Ok st
  | raw :: rest =>
    st' ← loop_body include_radiant st raw;
    loop include_radiant rest st'
  end.

Definition compute_average_details (ranks : list pystr)
    (include_radiant : bool)
  : result (list pystr * list Z * spec_float * pystr) :=
  if negb (length ranks =? 5)%nat then
    Raise (ValueError (msg_wrong_count (length ranks)))
  else
    st ← loop include_radiant ranks
           {| parsed := []; values := []; norm_ru := [] |};
    avg_value ← Float.int_truediv (sum (values st)) (Float.lit 5 0);
    final_num ← _round_half_up avg_value;
    final_ru ← _number_to_ru final_num include_radiant;
    Ok (norm_ru st, values st, avg_value, final_ru).

Definition average_rank (ranks : list pystr) : result pystr :=
  '(_, _, _, final_ru) ← compute_average_details ranks DEFAULT_INCLUDE_RADIANT;
  Ok final_ru.

(* ===================================================================== *)
(** ** Vocabulary of the properties                                        *)
(* ===================================================================== *)

(** The ceiling of the scale: [max_value] of [_number_to_ru]. *)
Definition ceiling (include_radiant : bool) : Z :=
  if include_radiant then RADIANT_VALUE else MAX_WITHOUT_RADIANT.

Definition clamp (include_radiant : bool) (num : Z) : Z :=
  Z.max 1 (Z.min num (ceiling include_radiant)).

(** Structured ranks: an ordinary family with a sub-tier in 1..3, or the
    top family without sub-tier. *)
Definition ordinary_rank (key : string) (tier : option Z) : Prop :=
  key ∈ ORDER ∧ ∃ t, tier = Some t ∧ 1 ≤ t ≤ 3.

Definition top_rank (key : string) (tier : option Z) : Prop :=
  key = "radiant"%string ∧ tier = None.

Definition valid_rank (key : string) (tier : option Z) : Prop :=
  ordinary_rank key tier ∨ top_rank key tier.

(** The display label of a structured rank, as the aggregator lists it in
    [norm_ru]. *)
Definition rank_label (key : string) (tier : option Z) : result pystr :=
  if decide (key = "radiant"%string) then dict_getitem RU_NAME "radiant"
  else
    ru_base ← dict_getitem RU_NAME key;
    Ok (ru_base ++ u " " ++ fmt_optional tier).

(** Forward, then inverse, gives back the label. *)
Definition roundtrips (key : string) (tier : option Z) (flag : bool) : Prop :=
  ∃ n, _rank_to_number key tier flag = Ok n
       ∧ _number_to_ru n flag = rank_label key tier.

(** All ordinary ranks, lowest first. *)
Definition ordinary_ranks : list (string * Z) :=
  flat_map (fun key => map (pair key) [1; 2; 3]) ORDER.

(* ===================================================================== *)
(** ** Scale mapper: proofs                                                *)
(* ===================================================================== *)

Ltac case_tier t H :=
  let E := fresh in
  assert (E : t = 1 ∨ t = 2 ∨ t = 3) by lia;
  clear H; destruct E as [-> | [-> | ->]].

Ltac case_lookup H :=
  lazymatch type of H with
  | (_ :: _) !! ?i = Some _ =>
    destruct i; [simpl in H; injection H as <- | simpl in H; case_lookup H]
  | _ => try discriminate H
  end.

Ltac case_order H := unfold ORDER in H; case_lookup H.

Lemma elem_of_ORDER key :
  key ∈ ORDER → ∃ i : nat, ORDER !! i = Some key.
Proof. intros H. by apply list_elem_of_lookup_1. Qed.

Lemma rank_to_number_ordinary flag (i : nat) key t :
  ORDER !! i = Some key → 1 ≤ t ≤ 3 →
  _rank_to_number key (Some t) flag = Ok (Z.of_nat i * 3 + t).
Proof.
  intros Hi Ht. case_order Hi; reflexivity.
Qed.

Lemma rank_to_number_radiant tier flag :
  _rank_to_number "radiant" tier flag = Ok (ceiling flag).
Proof. reflexivity. Qed.

(** C2: the forward mapping sends the ordinary family of index i with
    sub-tier t to i*3 + t; listed in rank order the ordinary ranks are sent
    to 1, 2, ..., 24 in this order (so the mapping is strictly increasing
    on them and reaches every integer of 1..24 once); the top family is
    sent to the ceiling. *)
Theorem forward_mapping_scale :
  (∀ flag (i : nat) key t,
      ORDER !! i = Some key → 1 ≤ t ≤ 3 →
      _rank_to_number key (Some t) flag = Ok (Z.of_nat i * 3 + t))
  ∧ (∀ flag,
      map (fun '(key, t) => _rank_to_number key (Some t) flag) ordinary_ranks
      = map Ok (seqZ 1 24))
  ∧ (∀ flag (i j : nat) ki kj ti tj ni nj,
      ORDER !! i = Some ki → ORDER !! j = Some kj →
      1 ≤ ti ≤ 3 → 1 ≤ tj ≤ 3 →
      _rank_to_number ki (Some ti) flag = Ok ni →
      _rank_to_number kj (Some tj) flag = Ok nj →
      ((i < j)%nat ∨ (i = j ∧ ti < tj) ↔ ni < nj))
  ∧ (∀ flag n, 1 ≤ n ≤ 24 →
      ∃ (i : nat) key t, ORDER !! i = Some key ∧ 1 ≤ t ≤ 3
        ∧ _rank_to_number key (Some t) flag = Ok n)
  ∧ (∀ flag, _rank_to_number "radiant" None flag = Ok (ceiling flag)).
Proof.
  split; [exact rank_to_number_ordinary |].
  split; [intros flag; reflexivity |].
  split.
  { intros flag i j ki kj ti tj ni nj Hi Hj Hti Htj Hni Hnj.
    rewrite (rank_to_number_ordinary flag i ki ti Hi Hti) in Hni.
    rewrite (rank_to_number_ordinary flag j kj tj Hj Htj) in Hnj.
    injection Hni as <-. injection Hnj as <-. lia. }
  split; [| intros flag; apply rank_to_number_radiant].
  intros flag n Hn.
  assert (Hlt : (Z.to_nat ((n - 1) `div` 3) < length ORDER)%nat).
  { simpl. assert ((n - 1) `div` 3 < 8) by (apply Z.div_lt_upper_bound; lia).
    assert (0 ≤ (n - 1) `div` 3) by (apply Z.div_pos; lia). lia. }
  destruct (lookup_lt_is_Some_2 _ _ Hlt) as [key Hkey].
  assert (Hmod : 0 ≤ (n - 1) `mod` 3 < 3) by (apply Z.mod_pos_bound; lia).
  exists (Z.to_nat ((n - 1) `div` 3)), key, ((n - 1) `mod` 3 + 1).
  split; [exact Hkey |]. split; [lia |].
  rewrite (rank_to_number_ordinary flag _ key _ Hkey) by lia.
  f_equal. rewrite Z2Nat.id by (apply Z.div_pos; lia).
  pose proof (Z.div_mod (n - 1) 3). lia.
Qed.

Lemma number_to_ru_clamp num flag :
  _number_to_ru num flag = _number_to_ru (clamp flag num) flag.
Proof.
  assert (Hc : 1 ≤ ceiling flag) by (destruct flag; cbv; discriminate).
  unfold _number_to_ru at 1 2. fold (ceiling flag).
  set (n1 := if num <? 1 then 1 else num).
  set (n2 := if ceiling flag <? n1 then ceiling flag else n1).
  set (c1 := if clamp flag num <? 1 then 1 else clamp flag num).
  set (c2 := if ceiling flag <? c1 then ceiling flag else c1).
  enough (n2 = c2) as -> by reflexivity.
  subst n1 n2 c1 c2. unfold clamp.
  destruct (Z.ltb_spec num 1);
    destruct (Z.ltb_spec (1 `max` (num `min` ceiling flag)) 1);
    repeat match goal with
           | |- context [?a <? ?b] => destruct (Z.ltb_spec a b)
           end; lia.
Qed.

Lemma clamp_range flag num : 1 ≤ clamp flag num ≤ ceiling flag.
Proof.
  assert (Hc : 1 ≤ ceiling flag) by (destruct flag; cbv; discriminate).
  unfold clamp. lia.
Qed.

Lemma ceiling_le_25 flag : ceiling flag ≤ 25.
Proof. destruct flag; cbv; discriminate. Qed.

(** Every integer of the scale is the value of a structured rank whose
    label the inverse mapping returns. *)
Lemma number_to_ru_in_range flag n :
  1 ≤ n ≤ ceiling flag →
  ∃ key tier label,
    valid_rank key tier
    ∧ _rank_to_number key tier flag = Ok n
    ∧ rank_label key tier = Ok label
    ∧ _number_to_ru n flag = Ok label.
Proof.
  intros Hn.
  destruct (decide (n = 25)) as [-> | Hne].
  - destruct flag; [| unfold ceiling, MAX_WITHOUT_RADIANT in Hn; lia].
    exists "radiant"%string, None. eexists.
    split; [right; by split |]. repeat split; reflexivity.
  - assert (Hn' : 1 ≤ n ≤ 24) by (pose proof (ceiling_le_25 flag); lia).
    assert (Hlt : (Z.to_nat ((n - 1) `div` 3) < length ORDER)%nat).
    { simpl. assert ((n - 1) `div` 3 < 8) by (apply Z.div_lt_upper_bound; lia).
      assert (0 ≤ (n - 1) `div` 3) by (apply Z.div_pos; lia). lia. }
    destruct (lookup_lt_is_Some_2 _ _ Hlt) as [key Hkey].
    assert (Hmod : 0 ≤ (n - 1) `mod` 3 < 3) by (apply Z.mod_pos_bound; lia).
    assert (Hdm := Z.div_mod (n - 1) 3).
    exists key, (Some ((n - 1) `mod` 3 + 1)).
    assert (Hval : valid_rank key (Some ((n - 1) `mod` 3 + 1))).
    { left. split; [by eapply list_elem_of_lookup_2 |].
      eexists; split; [reflexivity | lia]. }
    assert (E : n = Z.of_nat (Z.to_nat ((n - 1) `div` 3)) * 3
                    + ((n - 1) `mod` 3 + 1)).
    { rewrite Z2Nat.id by (apply Z.div_pos; lia). lia. }
    revert Hkey Hval E.
    generalize (Z.to_nat ((n - 1) `div` 3)) as i.
    intros i Hkey Hval E.
    set (t := (n - 1) `mod` 3 + 1) in *.
    assert (Ht : 1 ≤ t ≤ 3) by lia. clearbody t.
    case_order Hkey; case_tier t Ht; simpl in E; subst n;
      (eexists; split; [exact Hval |]; destruct flag; repeat split; reflexivity).
Qed.

(** C9: for every integer and either flag the inverse mapping returns a
    label and raises nothing; the label is the one of the input clamped to
    [1, ceiling], ceiling being 25 with the top family and 24 without;
    inputs below 1 are read as 1 and inputs above the ceiling as the
    ceiling. *)
Theorem number_to_ru_total_clamped :
  ∀ (num : Z) (flag : bool),
    (∃ label, _number_to_ru num flag = Ok label
              ∧ _number_to_ru (clamp flag num) flag = Ok label
              ∧ ∃ key tier, valid_rank key tier
                  ∧ _rank_to_number key tier flag = Ok (clamp flag num)
                  ∧ rank_label key tier = Ok label)
    ∧ (ceiling flag = if flag then 25 else 24)
    ∧ (if decide (num < 1) then clamp flag num = 1
       else if decide (ceiling flag < num) then clamp flag num = ceiling flag
       else clamp flag num = num).
Proof.
  intros num flag. split; [| split].
  - destruct (number_to_ru_in_range flag (clamp flag num) (clamp_range flag num))
      as (key & tier & label & Hv & Hf & Hl & Hi).
    exists label. rewrite number_to_ru_clamp. split; [exact Hi |].
    split; [exact Hi |]. by exists key, tier.
  - by destruct flag.
  - assert (Hc : 1 ≤ ceiling flag) by (destruct flag; cbv; discriminate).
    unfold clamp. repeat case_decide; lia.
Qed.

(** C1, as stated, fails for the top family when it is excluded: it is
    sent to 24, which the inverse mapping reads as the third sub-tier of the
    highest ordinary family. *)
Lemma roundtrip_fails_for_excluded_top :
  valid_rank "radiant" None
  ∧ _rank_to_number "radiant" None false = Ok 24
  ∧ _number_to_ru 24 false = Ok (u "Иммортал 3")
  ∧ rank_label "radiant" None = Ok (u "Радиант")
  ∧ (roundtrips "radiant" None false → False).
Proof.
  split; [right; by split |].
  repeat split; try reflexivity.
  intros (n & Hn & Hl). vm_compute in Hn. injection Hn as <-.
  vm_compute in Hl. discriminate Hl.
Qed.

(** C1, amended: forward then inverse mapping with the same flag gives back
    the display label of every ordinary rank under either flag, and of the
    top family when the flag includes it. *)
Theorem roundtrip_label :
  ∀ key tier flag,
    valid_rank key tier →
    ordinary_rank key tier ∨ flag = true →
    roundtrips key tier flag.
Proof.
  intros key tier flag Hv Hd.
  assert (Hc : ordinary_rank key tier ∨ (top_rank key tier ∧ flag = true)).
  { destruct Hd as [Ho | ->]; [by left |]. destruct Hv; [by left | by right]. }
  clear Hv Hd. destruct Hc as [[Hk (t & -> & Ht)] | [[-> ->] ->]].
  - apply elem_of_ORDER in Hk as [i Hi].
    case_order Hi; case_tier t Ht; destruct flag;
      (eexists; split; reflexivity).
  - exists 25. split; reflexivity.
Qed.

Lemma roundtrip_label_witness :
  valid_rank "gold" (Some 2)
  ∧ (ordinary_rank "gold" (Some 2) ∨ false = true)
  ∧ roundtrips "gold" (Some 2) false.
Proof.
  assert (Ho : ordinary_rank "gold" (Some 2)).
  { split; [refine (bool_decide_unpack _ _); vm_compute; exact I |].
    exists 2. split; [reflexivity | lia]. }
  split; [by left |]. split; [by left |].
  apply roundtrip_label; by left.
Defined.

(* ===================================================================== *)
(** ** Token parser: proofs                                                *)
(* ===================================================================== *)

(** The sub-tier and the core string the parser extracts. *)
Definition token_tier (raw : pystr) : option Z := search_tier (_clean_token raw).

Definition token_core (raw : pystr) : pystr :=
  let token := _clean_token raw in
  if search_tier token is Some _ then removelast token else token.

Definition known_key (key : string) : Prop :=
  key ∈ ORDER ∨ key = "radiant"%string.

#[global] Instance known_key_dec key : Decision (known_key key).
Proof. unfold known_key. apply _. Defined.

Definition all_aliases : list pystr := flat_map snd ALIASES.

(** The alias sets are pairwise disjoint, so the order in which the loops
    visit them does not matter. *)
Lemma aliases_NoDup : NoDup all_aliases.
Proof. refine (bool_decide_unpack _ _). vm_compute. exact I. Qed.

Lemma alias_values_known :
  map_Forall (fun _ key => known_key key) ALIAS_TO_KEY.
Proof.
  apply (@bool_decide_unpack _ (map_Forall_dec _ _)). vm_compute. exact I.
Qed.

Lemma alias_lookup_registered :
  Forall (fun '(key, names) =>
            Forall (fun nm => ALIAS_TO_KEY !! nm = Some key) names) ALIASES.
Proof. refine (bool_decide_unpack _ _). vm_compute. exact I. Qed.

Lemma known_key_cases key :
  known_key key →
  key ≠ ""%string
  ∧ ∃ ru_base, RU_NAME !! key = Some ru_base
               ∧ dict_getitem RU_NAME key = Ok ru_base.
Proof.
  intros [H | ->].
  - apply elem_of_ORDER in H as [i Hi].
    case_order Hi; (split; [discriminate | eexists; split; reflexivity]).
  - split; [discriminate | eexists; split; reflexivity].
Qed.

Lemma radiant_not_ordinary : "radiant"%string ∉ ORDER.
Proof. refine (bool_decide_unpack _ _). vm_compute. exact I. Qed.

Lemma known_key_ordinary key :
  known_key key → key ≠ "radiant"%string → key ∈ ORDER.
Proof. intros [H | ->]; [done | congruence]. Qed.

Lemma digit123_range c t : digit123 c = Some t → 1 ≤ t ≤ 3.
Proof.
  unfold digit123. repeat case_match; intros [= <-]; lia.
Qed.

Lemma search_tier_range token t : search_tier token = Some t → 1 ≤ t ≤ 3.
Proof.
  unfold search_tier. destruct (rev token) as [| c before]; [discriminate |].
  destruct (digit123 c) as [t' |] eqn:Hc.
  - intros [= <-]. by eapply digit123_range.
  - destruct (c =? 10)%N; [| discriminate].
    destruct before as [| d ?]; [discriminate |]. apply digit123_range.
Qed.

(** What the parser returns, by the alias the core string is. *)
Lemma parse_rank_token_cases raw :
  match ALIAS_TO_KEY !! token_core raw with
  | None => _parse_rank_token raw = Raise (ValueError (msg_unrecognized raw))
  | Some key =>
    ∃ ru_base, RU_NAME !! key = Some ru_base ∧
      if decide (key = "radiant"%string)
      then _parse_rank_token raw = Ok (key, None, ru_base)
      else key ∈ ORDER ∧
           match token_tier raw with
           | None =>
             _parse_rank_token raw = Raise (ValueError (msg_missing_tier ru_base))
           | Some t =>
             1 ≤ t ≤ 3 ∧ _parse_rank_token raw = Ok (key, Some t, ru_base)
           end
  end.
Proof.
  unfold _parse_rank_token. fold (token_core raw).
  change (search_tier (_clean_token raw)) with (token_tier raw).
  destruct (ALIAS_TO_KEY !! token_core raw) as [key |] eqn:Hkey; [| reflexivity].
  pose proof (alias_values_known _ _ Hkey) as Hk. simpl in Hk.
  destruct (known_key_cases key Hk) as (Hne & ru_base & Hru & Hget).
  exists ru_base. split; [exact Hru |].
  destruct (decide (key = ""%string)) as [He | _]; [done |].
  rewrite Hget. simpl.
  destruct (decide (key = "radiant"%string)) as [-> | Hr].
  - reflexivity.
  - destruct (decide (key ≠ "radiant"%string)) as [_ | Hn]; [| done].
    split; [by apply known_key_ordinary |].
    destruct (token_tier raw) as [t |] eqn:Ht; [| reflexivity].
    pose proof (search_tier_range _ _ Ht) as Hrange. split; [exact Hrange |].
    assert (E : (t =? 1) || (t =? 2) || (t =? 3) = true).
    { assert (Hc : t = 1 ∨ t = 2 ∨ t = 3) by lia.
      destruct Hc as [-> | [-> | ->]]; reflexivity. }
    by rewrite E.
Qed.

(** The three messages of the parser start differently. *)
Lemma msg_unrecognized_head raw :
  take 3 (msg_unrecognized raw) = [1053; 1077; 32]%N.
Proof. reflexivity. Qed.

Lemma msg_missing_tier_head ru_base :
  take 3 (msg_missing_tier ru_base) = [1044; 1083; 1103]%N.
Proof. reflexivity. Qed.

Lemma msg_invalid_tier_head ru_base t :
  take 3 (msg_invalid_tier ru_base t) = [1053; 1077; 1074]%N.
Proof. reflexivity. Qed.

Lemma msg_wrong_count_head n :
  take 3 (msg_wrong_count n) = [1054; 1078; 1080]%N.
Proof. reflexivity. Qed.

Lemma ValueError_inj a b : ValueError a = ValueError b → a = b.
Proof. intros H. by injection H. Qed.

Lemma msg_invalid_not_unrecognized raw ru_base t :
  msg_invalid_tier ru_base t ≠ msg_unrecognized raw.
Proof.
  intros E. apply (f_equal (take 3)) in E.
  rewrite msg_invalid_tier_head, msg_unrecognized_head in E. discriminate E.
Qed.

Lemma msg_invalid_not_missing ru ru_base t :
  msg_invalid_tier ru_base t ≠ msg_missing_tier ru.
Proof.
  intros E. apply (f_equal (take 3)) in E.
  rewrite msg_invalid_tier_head, msg_missing_tier_head in E. discriminate E.
Qed.

Lemma msg_wrong_count_not_unrecognized raw n :
  msg_wrong_count n ≠ msg_unrecognized raw.
Proof.
  intros E. apply (f_equal (take 3)) in E.
  rewrite msg_wrong_count_head, msg_unrecognized_head in E. discriminate E.
Qed.

Lemma msg_wrong_count_not_missing ru n :
  msg_wrong_count n ≠ msg_missing_tier ru.
Proof.
  intros E. apply (f_equal (take 3)) in E.
  rewrite msg_wrong_count_head, msg_missing_tier_head in E. discriminate E.
Qed.

(** The errors the parser raises. *)
Lemma parse_rank_token_errors raw e :
  _parse_rank_token raw = Raise e →
  e = ValueError (msg_unrecognized raw)
  ∨ ∃ ru_base, e = ValueError (msg_missing_tier ru_base).
Proof.
  intros He. pose proof (parse_rank_token_cases raw) as Hc.
  destruct (ALIAS_TO_KEY !! token_core raw) as [key |].
  - destruct Hc as (ru_base & _ & Hc). case_decide; [congruence |].
    destruct Hc as [_ Hc]. destruct (token_tier raw).
    + destruct Hc as [_ Hc]. congruence.
    + right. exists ru_base. congruence.
  - left. congruence.
Qed.

(** What a successful parse returns. *)
Lemma parse_rank_token_ok raw key tier ru_base :
  _parse_rank_token raw = Ok (key, tier, ru_base) →
  valid_rank key tier ∧ RU_NAME !! key = Some ru_base.
Proof.
  intros He. pose proof (parse_rank_token_cases raw) as Hc.
  destruct (ALIAS_TO_KEY !! token_core raw) as [key' |]; [| congruence].
  destruct Hc as (ru' & Hru & Hc). case_decide as Hr.
  - rewrite He in Hc. injection Hc as -> -> ->.
    split; [right; by split | exact Hru].
  - destruct Hc as [Hord Hc]. destruct (token_tier raw) as [t |].
    + destruct Hc as [Ht Hc]. rewrite He in Hc. injection Hc as -> -> ->.
      split; [left; split; [exact Hord | by exists t] | exact Hru].
    + congruence.
Qed.

(** C7: the parser fails in two cases only. When the core string is no
    alias it raises the unrecognized-rank error, whose message contains the
    raw text (token galaxy1); when the core is an alias of an ordinary family
    and no sub-tier digit was extracted it raises the missing-sub-tier error,
    whose message contains the family's name (token diamond). In the other
    cases it returns. The extracted sub-tier is 1, 2 or 3 when there is one,
    and the invalid-sub-tier error is raised for no input. *)
Theorem parse_rank_token_failures :
  (∀ raw,
     match ALIAS_TO_KEY !! token_core raw with
     | None =>
       _parse_rank_token raw = Raise (ValueError (msg_unrecognized raw))
     | Some key =>
       ∃ ru_base, RU_NAME !! key = Some ru_base ∧
         if decide (key = "radiant"%string)
         then _parse_rank_token raw = Ok (key, None, ru_base)
         else match token_tier raw with
              | None =>
                _parse_rank_token raw
                = Raise (ValueError (msg_missing_tier ru_base))
              | Some t =>
                _parse_rank_token raw = Ok (key, Some t, ru_base)
              end
     end)
  ∧ (∀ raw, ∃ pre post, msg_unrecognized raw = pre ++ raw ++ post)
  ∧ (∀ ru_base, ∃ pre post, msg_missing_tier ru_base = pre ++ ru_base ++ post)
  ∧ (∀ raw t, token_tier raw = Some t → t = 1 ∨ t = 2 ∨ t = 3)
  ∧ (∀ raw ru_base t,
       _parse_rank_token raw ≠ Raise (ValueError (msg_invalid_tier ru_base t)))
  ∧ _parse_rank_token (u "galaxy1")
    = Raise (ValueError (msg_unrecognized (u "galaxy1")))
  ∧ _parse_rank_token (u "diamond")
    = Raise (ValueError (msg_missing_tier (u "Алмаз"))).
Proof.
  split.
  { intros raw. pose proof (parse_rank_token_cases raw) as Hc.
    destruct (ALIAS_TO_KEY !! token_core raw) as [key |]; [| exact Hc].
    destruct Hc as (ru_base & Hru & Hc). exists ru_base.
    split; [exact Hru |]. case_decide; [exact Hc |].
    destruct Hc as [_ Hc]. destruct (token_tier raw); [apply Hc | exact Hc]. }
  split.
  { intros raw. unfold msg_unrecognized. eexists _, _. reflexivity. }
  split.
  { intros ru_base. unfold msg_missing_tier.
    eexists _, _. reflexivity. }
  split.
  { intros raw t Ht. apply search_tier_range in Ht. lia. }
  split; [| split; vm_compute; reflexivity].
  intros raw ru_base t He.
  destruct (parse_rank_token_errors _ _ He) as [E | [ru' E]]; clear He.
  - exact (msg_invalid_not_unrecognized _ _ _ (ValueError_inj _ _ E)).
  - exact (msg_invalid_not_missing _ _ _ (ValueError_inj _ _ E)).
Qed.

(** C4: a token that parses to the top family has no sub-tier, also when
    the token ends with a digit of 1..3, and its scale value is 25 when the
    top family is included and 24 when it is not. *)
Theorem parse_top_family :
  ∀ raw key tier ru_base flag,
    _parse_rank_token raw = Ok (key, tier, ru_base) →
    key = "radiant"%string →
    tier = None
    ∧ _rank_to_number key tier flag = Ok (if flag then 25 else 24).
Proof.
  intros raw key tier ru_base flag Hp ->.
  apply parse_rank_token_ok in Hp as [[[Hord _] | [_ ->]] _].
  - by apply radiant_not_ordinary in Hord.
  - split; [reflexivity | by destruct flag].
Qed.

Lemma parse_top_family_witness :
  token_tier (u "Radiant 3") = Some 3
  ∧ _parse_rank_token (u "Radiant 3") = Ok ("radiant"%string, None, u "Радиант")
  ∧ (@None Z = None ∧ _rank_to_number "radiant" None false = Ok 24).
Proof.
  split; [vm_compute; reflexivity |].
  split; [vm_compute; reflexivity |].
  apply (parse_top_family (u "Radiant 3") "radiant" None (u "Радиант") false);
    [vm_compute; reflexivity | reflexivity].
Defined.

(* ===================================================================== *)
(** ** Rounding of the mean: proofs                                        *)
(* ===================================================================== *)

(** The integer nearest to a rational, halves going up. *)
Definition nearest_half_up (q : Q) : Z := Qfloor (q + (1 # 2))%Q.

(** The mean [s / 5.0] is rounded to the integer nearest to s/5. *)
Definition mean_rounds_well (s : Z) : bool :=
  match Float.int_truediv s (Float.lit 5 0) with
  | Ok avg =>
    match _round_half_up avg with
    | Ok r => r =? nearest_half_up (s # 5)
    | Raise _ => false
    end
  | Raise _ => false
  end.

(** The float [n + 0.5] is rounded to n + 1. *)
Definition half_rounds_up (n : Z) : bool :=
  match _round_half_up (Float.lit (2 * n + 1) (-1)) with
  | Ok r => (r =? n + 1) && Qeq_bool (Float.to_Q (Float.lit (2 * n + 1) (-1)))
                                     ((2 * n + 1) # 2)
  | Raise _ => false
  end.

Lemma means_round_well :
  Forall (fun s => mean_rounds_well s = true) (seqZ 0 126).
Proof. refine (bool_decide_unpack _ _). vm_compute. exact I. Qed.

Lemma halves_round_up :
  Forall (fun n => half_rounds_up n = true) (seqZ 0 126).
Proof. refine (bool_decide_unpack _ _). vm_compute. exact I. Qed.

Lemma nearest_half_up_fifths s : nearest_half_up (s # 5) = (2 * s + 5) `div` 10.
Proof.
  unfold nearest_half_up, Qplus, Qfloor. simpl Qnum. simpl Qden.
  f_equal. lia.
Qed.

Lemma mean_round_spec s :
  0 ≤ s ≤ 125 →
  ∃ avg r,
    Float.int_truediv s (Float.lit 5 0) = Ok avg
    ∧ _round_half_up avg = Ok r
    ∧ r = nearest_half_up (s # 5)
    ∧ 2 * s - 5 < 10 * r ≤ 2 * s + 5.
Proof.
  intros Hs.
  assert (Hin : s ∈ seqZ 0 126) by (apply elem_of_seqZ; lia).
  pose proof (proj1 (Forall_forall _ _) means_round_well s Hin) as Hc.
  unfold mean_rounds_well in Hc.
  destruct (Float.int_truediv s (Float.lit 5 0)) as [avg | ?]; [| discriminate Hc].
  destruct (_round_half_up avg) as [r | ?] eqn:Hr; [| discriminate Hc].
  apply Z.eqb_eq in Hc. exists avg, r.
  split; [reflexivity |]. split; [exact Hr |]. split; [exact Hc |].
  rewrite Hc, nearest_half_up_fifths.
  pose proof (Z.div_mod (2 * s + 5) 10).
  pose proof (Z.mod_pos_bound (2 * s + 5) 10). lia.
Qed.



(** On the aggregator's domain the rounding is exact: on the float quotient
    s / 5.0 of an integer sum s of 0..125 the rounding function returns the
    integer nearest to s/5, and on the float n + 0.5 with n an integer of
    0..125 it returns n + 1. The float of [below_half] is no such mean. *)
Theorem round_half_up_on_scale :
  ∀ s n,
    0 ≤ s ≤ 125 → 0 ≤ n ≤ 125 →
    (∃ avg r,
        Float.int_truediv s (Float.lit 5 0) = Ok avg
        ∧ _round_half_up avg = Ok r
        ∧ r = nearest_half_up (s # 5)
        ∧ 2 * s - 5 < 10 * r ≤ 2 * s + 5)
    ∧ (Float.to_Q (Float.lit (2 * n + 1) (-1)) == (2 * n + 1) # 2)%Q
    ∧ _round_half_up (Float.lit (2 * n + 1) (-1)) = Ok (n + 1).
Proof.
  intros s n Hs Hn. split; [by apply mean_round_spec |].
  assert (Hin : n ∈ seqZ 0 126) by (apply elem_of_seqZ; lia).
  pose proof (proj1 (Forall_forall _ _) halves_round_up n Hin) as Hc.
  unfold half_rounds_up in Hc.
  destruct (_round_half_up (Float.lit (2 * n + 1) (-1))) as [r | ?];
    [| discriminate Hc].
  apply andb_prop in Hc as [Hr Hq].
  apply Z.eqb_eq in Hr. apply Qeq_bool_iff in Hq.
  split; [exact Hq | by rewrite Hr].
Qed.

Lemma round_half_up_on_scale_witness :
  0 ≤ 56 ≤ 125 ∧ 0 ≤ 12 ≤ 125
  ∧ _round_half_up (Float.lit 25 (-1)) = Ok 13.
Proof.
  split; [lia |]. split; [lia |].
  exact (proj2 (proj2 (round_half_up_on_scale 56 12 ltac:(lia) ltac:(lia)))).
Defined.

(* ===================================================================== *)
(** ** Aggregator: proofs                                                  *)
(* ===================================================================== *)

(** The error of the first token that does not parse, if any. *)
Fixpoint first_error (ranks : list pystr) : option exn :=
  match ranks with
  | [] => None
  | raw :: rest =>
    match _parse_rank_token raw with
    | Raise e => Some e
    | Ok _ => first_error rest
    end
  end.

Definition in_scale (flag : bool) (v : Z) : Prop := 1 ≤ v ≤ ceiling flag.

Lemma valid_rank_value flag key tier :
  valid_rank key tier →
  ∃ val, _rank_to_number key tier flag = Ok val ∧ in_scale flag val.
Proof.
  assert (Hc : 24 ≤ ceiling flag) by (destruct flag; cbv; discriminate).
  intros [[Hk (t & -> & Ht)] | [-> ->]].
  - apply elem_of_ORDER in Hk as [i Hi].
    pose proof (lookup_lt_Some _ _ _ Hi) as Hlt. simpl in Hlt.
    exists (Z.of_nat i * 3 + t).
    split; [by apply rank_to_number_ordinary |]. unfold in_scale. lia.
  - exists (ceiling flag). split; [reflexivity |]. unfold in_scale. lia.
Qed.

Lemma dict_getitem_Some {V} (d : gmap string V) k v :
  d !! k = Some v → dict_getitem d k = Ok v.
Proof. unfold dict_getitem. by intros ->. Qed.

Lemma loop_body_cases flag st raw :
  match _parse_rank_token raw with
  | Raise e => loop_body flag st raw = Raise e
  | Ok (key, tier, ru_base) =>
    ∃ val name,
      _rank_to_number key tier flag = Ok val
      ∧ in_scale flag val
      ∧ rank_label key tier = Ok name
      ∧ loop_body flag st raw
        = Ok {| parsed := parsed st ++ [(key, tier, val)];
                values := values st ++ [val];
                norm_ru := norm_ru st ++ [name] |}
  end.
Proof.
  unfold loop_body.
  destruct (_parse_rank_token raw) as [[[key tier] ru_base] | e] eqn:Hp;
    [| reflexivity].
  apply parse_rank_token_ok in Hp as [Hv Hru].
  destruct (valid_rank_value flag key tier Hv) as (val & Hval & Hs).
  unfold rank_label. rewrite (dict_getitem_Some _ _ _ Hru).
  unfold mbind, result_bind. rewrite Hval.
  destruct (decide (key = "radiant"%string)) as [-> | Hne].
  - exists val, (u "Радиант"). repeat split; try reflexivity; apply Hs.
  - exists val, (ru_base ++ u " " ++ fmt_optional tier).
    repeat split; try reflexivity; apply Hs.
Qed.

Lemma loop_spec flag ranks st :
  match first_error ranks with
  | Some e => loop flag ranks st = Raise e
  | None =>
    ∃ st' vals,
      loop flag ranks st = Ok st'
      ∧ values st' = values st ++ vals
      ∧ length vals = length ranks
      ∧ Forall (in_scale flag) vals
  end.
Proof.
  revert st. induction ranks as [| raw rest IH]; intros st.
  - simpl. exists st, []. rewrite app_nil_r. by repeat split.
  - cbn [first_error loop]. pose proof (loop_body_cases flag st raw) as Hb.
    destruct (_parse_rank_token raw) as [[[key tier] ru_base] | e].
    + destruct Hb as (val & name & _ & Hs & _ & ->).
      unfold mbind, result_bind.
      set (st1 := {| parsed := _; values := _; norm_ru := _ |}).
      specialize (IH st1). destruct (first_error rest) as [e |]; [exact IH |].
      destruct IH as (st' & vals & Hl & Hvals & Hlen & Hall).
      exists st', (val :: vals). split; [exact Hl |].
      split; [rewrite Hvals; subst st1; simpl; by rewrite <- app_assoc |].
      split; [simpl; by rewrite Hlen |]. by constructor.
    + unfold mbind, result_bind. by rewrite Hb.
Qed.

Lemma foldl_add_shift a values : foldl Z.add a values = a + sum values.
Proof.
  unfold sum. revert a. induction values as [| v values IH]; intros a; simpl.
  - lia.
  - rewrite (IH (a + v)), (IH (0 + v)). lia.
Qed.

Lemma sum_in_scale flag vals :
  Forall (in_scale flag) vals →
  Z.of_nat (length vals) ≤ sum vals ≤ Z.of_nat (length vals) * ceiling flag.
Proof.
  induction 1 as [| v vals Hv _ IH].
  - cbn. lia.
  - unfold sum in *. cbn [foldl length]. rewrite foldl_add_shift.
    unfold sum, in_scale in *. lia.
Qed.

Lemma first_error_Some ranks e :
  first_error ranks = Some e →
  ∃ raw, raw ∈ ranks ∧ _parse_rank_token raw = Raise e.
Proof.
  induction ranks as [| raw rest IH]; cbn [first_error];
    [intros H; discriminate H |].
  destruct (_parse_rank_token raw) as [? | e'] eqn:Hp.
  - intros H. destruct (IH H) as (raw' & Hin & Hr).
    exists raw'. split; [by right | exact Hr].
  - intros [= ->]. exists raw. split; [by left | exact Hp].
Qed.

Lemma first_error_split pre raw post e :
  Forall (fun r => is_ok (_parse_rank_token r) = true) pre →
  _parse_rank_token raw = Raise e →
  first_error (pre ++ raw :: post) = Some e.
Proof.
  intros Hpre Hraw.
  induction Hpre as [| r pre Hr _ IH]; cbn [app first_error].
  - rewrite Hraw. reflexivity.
  - destruct (_parse_rank_token r); [exact IH | discriminate Hr].
Qed.

Lemma compute_average_details_wrong_count ranks flag :
  length ranks ≠ 5%nat →
  compute_average_details ranks flag
  = Raise (ValueError (msg_wrong_count (length ranks))).
Proof.
  intros Hlen. unfold compute_average_details.
  destruct (Nat.eqb_spec (length ranks) 5) as [E | _]; [done | reflexivity].
Qed.

Lemma compute_average_details_spec ranks flag :
  length ranks = 5%nat →
  match first_error ranks with
  | Some e => compute_average_details ranks flag = Raise e
  | None =>
    ∃ norm vals avg final_num final_ru,
      compute_average_details ranks flag = Ok (norm, vals, avg, final_ru)
      ∧ length vals = 5%nat
      ∧ Forall (in_scale flag) vals
      ∧ Float.int_truediv (sum vals) (Float.lit 5 0) = Ok avg
      ∧ _round_half_up avg = Ok final_num
      ∧ final_num = nearest_half_up (sum vals # 5)
      ∧ in_scale flag final_num
      ∧ _number_to_ru final_num flag = Ok final_ru
  end.
Proof.
  intros Hlen. unfold compute_average_details. rewrite Hlen.
  cbn [Nat.eqb negb].
  pose proof (loop_spec flag ranks
                {| parsed := []; values := []; norm_ru := [] |}) as Hl.
  destruct (first_error ranks) as [e |].
  - rewrite Hl. reflexivity.
  - destruct Hl as (st' & vals & -> & Hvals & Hn & Hall).
    cbn [values app] in Hvals. rewrite Hlen in Hn.
    unfold mbind at 1, result_bind at 1. rewrite Hvals.
    pose proof (sum_in_scale flag vals Hall) as Hsum. rewrite Hn in Hsum.
    pose proof (ceiling_le_25 flag) as Hc.
    destruct (mean_round_spec (sum vals)) as (avg & r & Ha & Hr & Hnear & Hb);
      [lia |].
    assert (Hin : in_scale flag r) by (unfold in_scale; lia).
    destruct (number_to_ru_in_range flag r Hin) as (_ & _ & label & _ & _ & _ & Hi).
    exists (norm_ru st'), vals, avg, r, label.
    rewrite Ha. unfold mbind, result_bind. rewrite Hr, Hi.
    repeat (split; [first [reflexivity | assumption] |]). reflexivity.
Qed.

(** C5: the acceptance inputs of the source's doctests give the stated
    labels through [average_rank]. *)
Theorem average_rank_acceptance :
  average_rank [u "д1"; u "аск1"; u "б1"; u "с1"; u "г1"]
  = Ok (u "Золото 2")
  ∧ average_rank [u "diamond 2"; u "ascendant3"; u "иммо1"; u "gold3";
                  u "platinum1"]
    = Ok (u "Алмаз 2")
  ∧ average_rank [u "Radiant"; u "Immortal 3"; u "Immortal 3";
                  u "Ascendant 3"; u "Diamond 3"]
    = Ok (u "Иммортал 1").
Proof. repeat split; vm_compute; reflexivity. Qed.

(** C6: with a number of entries other than 5 the aggregator raises the
    wrong-count error, whatever the entries are; with 5 entries it never
    raises that error, it raises the error of the first token that does not
    parse when there is one, and it returns a result when every token
    parses. *)
Theorem compute_average_details_errors :
  ∀ ranks flag,
    (length ranks ≠ 5%nat →
     compute_average_details ranks flag
     = Raise (ValueError (msg_wrong_count (length ranks))))
    ∧ (length ranks = 5%nat →
       (∀ n, compute_average_details ranks flag
             ≠ Raise (ValueError (msg_wrong_count n)))
       ∧ match first_error ranks with
         | Some e => compute_average_details ranks flag = Raise e
         | None => is_ok (compute_average_details ranks flag) = true
         end)
    ∧ (∀ pre raw post e,
         ranks = pre ++ raw :: post →
         Forall (fun r => is_ok (_parse_rank_token r) = true) pre →
         _parse_rank_token raw = Raise e →
         first_error ranks = Some e).
Proof.
  intros ranks flag. split; [apply compute_average_details_wrong_count |].
  split.
  - intros Hlen. pose proof (compute_average_details_spec ranks flag Hlen) as Hs.
    destruct (first_error ranks) as [e |] eqn:Hfe.
    + split; [| exact Hs]. intros n Hn. rewrite Hs in Hn.
      destruct (first_error_Some _ _ Hfe) as (raw & _ & Hraw).
      assert (He : e = ValueError (msg_wrong_count n)).
      { injection Hn as Hn. exact Hn. }
      clear Hn Hs. subst e.
      destruct (parse_rank_token_errors _ _ Hraw) as [E | [ru E]]; clear Hraw.
      * exact (msg_wrong_count_not_unrecognized _ _ (ValueError_inj _ _ E)).
      * exact (msg_wrong_count_not_missing _ _ (ValueError_inj _ _ E)).
    + destruct Hs as (norm & vals & avg & r & label & -> & _).
      split; [| reflexivity]. intros n Hn. discriminate Hn.
  - intros pre raw post e -> Hpre Hraw. by apply first_error_split.
Qed.

Lemma compute_average_details_errors_witness :
  length [u "д1"; u "galaxy1"; u "diamond"] ≠ 5%nat
  ∧ compute_average_details [u "д1"; u "galaxy1"; u "diamond"] true
    = Raise (ValueError (msg_wrong_count 3)).
Proof.
  split; [cbn; lia |].
  exact (proj1 (compute_average_details_errors
                  [u "д1"; u "galaxy1"; u "diamond"] true) ltac:(cbn; lia)).
Defined.

(** C10: on a successful run of the aggregator, under either flag, every
    scale value lies in [1, ceiling] and so does the rounded mean, so the
    inverse mapping takes neither clamp branch. *)
Theorem compute_average_details_no_clamp :
  ∀ ranks flag norm vals avg final_ru,
    compute_average_details ranks flag = Ok (norm, vals, avg, final_ru) →
    length ranks = 5%nat
    ∧ Forall (fun v => 1 ≤ v ≤ ceiling flag) vals
    ∧ ∃ final_num,
        _round_half_up avg = Ok final_num
        ∧ 1 ≤ final_num ≤ ceiling flag
        ∧ (final_num <? 1) = false
        ∧ (ceiling flag <? final_num) = false
        ∧ clamp flag final_num = final_num
        ∧ _number_to_ru final_num flag = Ok final_ru.
Proof.
  intros ranks flag norm vals avg final_ru Hc.
  destruct (decide (length ranks = 5%nat)) as [Hlen | Hlen].
  2: { rewrite (compute_average_details_wrong_count _ _ Hlen) in Hc.
       discriminate Hc. }
  split; [exact Hlen |].
  pose proof (compute_average_details_spec ranks flag Hlen) as Hs.
  destruct (first_error ranks) as [e |].
  { rewrite Hs in Hc. discriminate Hc. }
  destruct Hs as (norm' & vals' & avg' & r & label & Hs & _ & Hall & _ & Hr
                  & _ & Hin & Hi).
  rewrite Hs in Hc. injection Hc as -> -> -> ->.
  split; [exact Hall |]. exists r. unfold in_scale in Hin.
  split; [exact Hr |]. split; [exact Hin |].
  split; [apply Z.ltb_ge; lia |]. split; [apply Z.ltb_ge; lia |].
  split; [unfold clamp; lia | exact Hi].
Qed.

Lemma compute_average_details_no_clamp_witness :
  compute_average_details
    [u "Алмаз 1"; u "Асцендант 1"; u "бронза 1"; u "серебро1"; u "золото 1"]
    false
  = Ok ([u "Алмаз 1"; u "Асцендант 1"; u "Бронза 1"; u "Серебро 1";
         u "Золото 1"],
        [16; 19; 4; 7; 10],
        S754_finite false 6305039478318694 (-49),
        u "Золото 2")
  ∧ _round_half_up (S754_finite false 6305039478318694 (-49)) = Ok 11
  ∧ Forall (fun v => 1 ≤ v ≤ ceiling false) [16; 19; 4; 7; 10].
Proof.
  split; [vm_compute; reflexivity |]. split; [vm_compute; reflexivity |].
  exact (proj1 (proj2 (compute_average_details_no_clamp
    [u "Алмаз 1"; u "Асцендант 1"; u "бронза 1"; u "серебро1"; u "золото 1"]
    false _ _ _ _ ltac:(vm_compute; reflexivity)))).
Defined.

(* ===================================================================== *)
(** ** Normaliser: proofs                                                  *)
(* ===================================================================== *)

(** What the normaliser does to one code point before the separators are
    removed: lower-casing, then the replacement of U+0451 by U+0435. *)
Definition fold_cp (c : N) : N :=
  let l := Unicode.lower_cp c in if (l =? 0x451)%N then 0x435%N else l.

(** The normaliser without its [strip()]. *)
Definition normalize_body (s : pystr) : pystr :=
  remove_separators (Unicode.replace1 0x451 0x435 (Unicode.lower s)).

Definition core_of_token (token : pystr) : pystr :=
  if search_tier token is Some _ then removelast token else token.

(** The capital of a small Latin or Cyrillic letter. *)
Definition upper_of (c : N) : N :=
  (if (0x61 <=? c) && (c <=? 0x7A) then c - 0x20
   else if (0x430 <=? c) && (c <=? 0x44F) then c - 0x20
   else if (0x450 <=? c) && (c <=? 0x45F) then c - 0x50
   else c)%N.

(** The ways a character of an alias may be written: as it is, as its
    capital, and, for U+0435, as U+0451 or its capital U+0401. *)
Inductive written_as (c : N) : N → Prop :=
  | written_same : written_as c c
  | written_upper : written_as c (upper_of c)
  | written_yo : c = 0x435%N → written_as c 0x451%N
  | written_YO : c = 0x435%N → written_as c 0x401%N.

(** The characters that may be inserted: the space U+0020, the tab U+0009,
    the hyphen U+002D, the underscore U+005F and the period U+002E. *)
Definition insertable (c : N) : Prop :=
  c ∈ [0x20; 0x09; 0x2D; 0x5F; 0x2E]%N.

(** [decorated tok body]: [body] is [tok] with its characters rewritten by
    [written_as] and with spaces, tabs, hyphens, periods and underscores
    inserted anywhere. *)
Inductive decorated : pystr → pystr → Prop :=
  | decorated_nil : decorated [] []
  | decorated_sep c tok body :
      insertable c → decorated tok body → decorated tok (c :: body)
  | decorated_char c c' tok body :
      written_as c c' → decorated tok body →
      decorated (c :: tok) (c' :: body).

(** [variant tok raw]: a decorated [tok] surrounded by white space. *)
Definition variant (tok raw : pystr) : Prop :=
  ∃ ws1 body ws2,
    raw = ws1 ++ body ++ ws2
    ∧ Forall (fun c => Unicode.is_space c = true) ws1
    ∧ Forall (fun c => Unicode.is_space c = true) ws2
    ∧ decorated tok body.

(** The plain tokens: every alias, alone and followed by a sub-tier. *)
Definition suffixes : list pystr := [[]; u "1"; u "2"; u "3"].

Definition plain_tokens : list (string * pystr) :=
  flat_map (fun '(key, names) =>
              flat_map (fun nm => map (fun sfx => (key, nm ++ sfx)) suffixes)
                       names)
           ALIASES.

(** A character all of whose written forms the normaliser folds back to it
    and keeps, none of them being white space. *)
Definition plain_char (c : N) : Prop :=
  fold_cp c = c ∧ fold_cp (upper_of c) = c
  ∧ (c = 0x435%N → fold_cp 0x451 = c ∧ fold_cp 0x401 = c)
  ∧ is_separator c = false
  ∧ Unicode.is_space c = false ∧ Unicode.is_space (upper_of c) = false.

#[global] Instance plain_char_dec c : Decision (plain_char c).
Proof. unfold plain_char. apply _. Defined.

Lemma plain_tokens_chars :
  Forall (fun kt => Forall plain_char kt.2) plain_tokens.
Proof. refine (bool_decide_unpack _ _). vm_compute. exact I. Qed.

Lemma plain_tokens_lookup :
  Forall (fun kt => ALIAS_TO_KEY !! core_of_token kt.2 = Some kt.1)
         plain_tokens.
Proof. refine (bool_decide_unpack _ _). vm_compute. exact I. Qed.

Lemma clean_token_strip raw :
  _clean_token raw = normalize_body (Unicode.strip raw).
Proof. reflexivity. Qed.

Lemma normalize_body_cons c s :
  normalize_body (c :: s)
  = if is_separator (fold_cp c) then normalize_body s
    else fold_cp c :: normalize_body s.
Proof.
  unfold normalize_body, remove_separators, Unicode.replace1, Unicode.lower.
  cbn [map]. rewrite filter_cons. fold (fold_cp c).
  destruct (decide (is_separator (fold_cp c) = false)) as [E | E].
  - by rewrite E.
  - by destruct (is_separator (fold_cp c)).
Qed.

Lemma normalize_body_app a b :
  normalize_body (a ++ b) = normalize_body a ++ normalize_body b.
Proof.
  induction a as [| c a IH]; [reflexivity |].
  cbn [app]. rewrite !normalize_body_cons, IH.
  by destruct (is_separator (fold_cp c)).
Qed.

Lemma normalize_body_rev s : normalize_body (rev s) = rev (normalize_body s).
Proof.
  induction s as [| c s IH]; [reflexivity |].
  cbn [rev]. rewrite normalize_body_app, IH, !normalize_body_cons.
  destruct (is_separator (fold_cp c)); cbn [rev]; [by rewrite app_nil_r | done].
Qed.

(** A character is safe to strip when the normaliser would remove it
    anyway. *)
Definition safe (c : N) : Prop :=
  Unicode.is_space c = true → is_separator (fold_cp c) = true.

Definition spaces (ws : pystr) : Prop :=
  Forall (fun c => Unicode.is_space c = true) ws.

Section Strip.
Import Unicode.

Lemma lstrip_spaces ws s : spaces ws → lstrip (ws ++ s) = lstrip s.
Proof.
  induction 1 as [| c ws Hc _ IH]; [reflexivity |].
  cbn [app lstrip]. by rewrite Hc.
Qed.

Lemma lstrip_all_spaces ws : spaces ws → lstrip ws = [].
Proof.
  intros H. rewrite <- (app_nil_r ws). by rewrite lstrip_spaces.
Qed.

Lemma lstrip_app a b :
  lstrip (a ++ b) = match lstrip a with [] => lstrip b | l => l ++ b end.
Proof.
  induction a as [| c a IH]; [reflexivity |].
  cbn [app lstrip]. by destruct (is_space c).
Qed.

Lemma lstrip_safe s : Forall safe s → Forall safe (lstrip s).
Proof.
  induction 1 as [| c s Hc Hs IH]; [constructor |].
  cbn [lstrip]. destruct (is_space c); [exact IH | by constructor].
Qed.

Lemma lstrip_normalize s :
  Forall safe s → normalize_body (lstrip s) = normalize_body s.
Proof.
  induction 1 as [| c s Hc _ IH]; [reflexivity |].
  cbn [lstrip]. destruct (is_space c) eqn:E; [| reflexivity].
  by rewrite normalize_body_cons, (Hc E).
Qed.

Lemma rstrip_spaces s ws : spaces ws → rstrip (s ++ ws) = rstrip s.
Proof.
  intros H. unfold rstrip. rewrite rev_app_distr, lstrip_spaces; [done |].
  by apply List.Forall_rev.
Qed.

Lemma rstrip_normalize s :
  Forall safe s → normalize_body (rstrip s) = normalize_body s.
Proof.
  intros H. unfold rstrip.
  rewrite normalize_body_rev, lstrip_normalize, normalize_body_rev,
    rev_involutive; [done |].
  by apply List.Forall_rev.
Qed.

Lemma strip_normalize ws1 body ws2 :
  spaces ws1 → spaces ws2 → Forall safe body →
  normalize_body (strip (ws1 ++ body ++ ws2)) = normalize_body body.
Proof.
  intros H1 H2 Hb. unfold strip.
  rewrite lstrip_spaces by exact H1. rewrite lstrip_app.
  pose proof (lstrip_normalize body Hb) as Hn.
  pose proof (lstrip_safe body Hb) as Hs.
  destruct (lstrip body) as [| c l].
  - rewrite lstrip_all_spaces by exact H2. by rewrite <- Hn.
  - rewrite rstrip_spaces by exact H2.
    rewrite rstrip_normalize by exact Hs. exact Hn.
Qed.

End Strip.

Lemma separator_fold c : is_separator c = true → fold_cp c = c.
Proof.
  unfold is_separator. rewrite !orb_true_iff, !N.eqb_eq.
  intros [[[[-> | ->] | ->] | ->] | ->]; reflexivity.
Qed.

Lemma written_as_fold c c' :
  plain_char c → written_as c c' →
  fold_cp c' = c ∧ Unicode.is_space c' = false.
Proof.
  intros (Hsame & Hup & Hyo & _ & Hsp & Hspu) [| | E | E].
  - by split.
  - by split.
  - split; [apply (Hyo E) | reflexivity].
  - split; [apply (Hyo E) | reflexivity].
Qed.

Lemma insertable_separator c : insertable c → is_separator c = true.
Proof.
  unfold insertable. rewrite !elem_of_cons, elem_of_nil.
  intros [-> | [-> | [-> | [-> | [-> | []]]]]]; reflexivity.
Qed.

Lemma decorated_normalize tok body :
  decorated tok body → Forall plain_char tok →
  Forall safe body ∧ normalize_body body = tok.
Proof.
  induction 1 as [| c tok body Hc _ IH | c c' tok body Hw _ IH]; intros Hp.
  - by split.
  - apply insertable_separator in Hc.
    destruct (IH Hp) as [Hs Hn]. split.
    + constructor; [| exact Hs]. intros _. by rewrite separator_fold.
    + by rewrite normalize_body_cons, separator_fold, Hc.
  - apply Forall_cons in Hp as [Hpc Hp]. destruct (IH Hp) as [Hs Hn].
    destruct (written_as_fold c c' Hpc Hw) as [Hf Hsp].
    split.
    + constructor; [| exact Hs]. intros E. congruence.
    + rewrite normalize_body_cons, Hf, Hn.
      destruct Hpc as (_ & _ & _ & -> & _). reflexivity.
Qed.

Lemma variant_clean tok raw :
  Forall plain_char tok → variant tok raw → _clean_token raw = tok.
Proof.
  intros Hp (ws1 & body & ws2 & -> & H1 & H2 & Hd).
  destruct (decorated_normalize tok body Hd Hp) as [Hs Hn].
  rewrite clean_token_strip, strip_normalize; done.
Qed.

Lemma decorated_refl tok : decorated tok tok.
Proof.
  induction tok as [| c tok IH]; [constructor |].
  apply decorated_char; [constructor | exact IH].
Qed.

Lemma variant_refl tok : variant tok tok.
Proof.
  exists [], tok, []. rewrite app_nil_r.
  split; [reflexivity |]. split; [constructor |]. split; [constructor |].
  apply decorated_refl.
Qed.

Lemma token_core_clean raw : token_core raw = core_of_token (_clean_token raw).
Proof. reflexivity. Qed.

(** The parser reads the raw text through the normaliser only, except in
    the message of the unrecognized-rank error. *)
Lemma parse_by_clean raw raw' key :
  _clean_token raw = _clean_token raw' →
  ALIAS_TO_KEY !! token_core raw = Some key →
  _parse_rank_token raw = _parse_rank_token raw'.
Proof.
  intros Hc Hk.
  destruct (known_key_cases key (alias_values_known _ _ Hk)) as [Hne _].
  unfold token_core in Hk. cbv zeta in Hk.
  unfold _parse_rank_token. cbv zeta. rewrite <- Hc, Hk.
  destruct (decide (key = ""%string)) as [E | _]; [| reflexivity].
  destruct (Hne E).
Qed.

Lemma plain_token_in key names nm sfx :
  (key, names) ∈ ALIASES → nm ∈ names → sfx ∈ suffixes →
  (key, nm ++ sfx) ∈ plain_tokens.
Proof.
  intros Hk Hn Hs. unfold plain_tokens.
  apply list_elem_of_In, in_flat_map. exists (key, names).
  split; [by apply list_elem_of_In |].
  apply in_flat_map. exists nm. split; [by apply list_elem_of_In |].
  apply in_map_iff. exists sfx. split; [reflexivity | by apply list_elem_of_In].
Qed.

Definition token_with_line_feed : pystr := u "д" ++ [0x0A%N] ++ u "1".
Definition token_with_no_break_space : pystr := u "д" ++ [0xA0%N] ++ u "1".

(** C8, as stated, fails: white space other than the space and the tab is
    not removed inside a token. With a line feed or a no-break space between
    the alias and its sub-tier the normaliser leaves the token as it is, and
    the parser rejects it, while it accepts the plain token. *)
Lemma internal_whitespace_not_removed :
  Unicode.is_space 0x0A = true
  ∧ Unicode.is_space 0xA0 = true
  ∧ _parse_rank_token (u "д1") = Ok ("diamond"%string, Some 1, u "Алмаз")
  ∧ _clean_token token_with_line_feed = token_with_line_feed
  ∧ _parse_rank_token token_with_line_feed
    = Raise (ValueError (msg_unrecognized token_with_line_feed))
  ∧ _clean_token token_with_no_break_space = token_with_no_break_space
  ∧ _parse_rank_token token_with_no_break_space
    = Raise (ValueError (msg_unrecognized token_with_no_break_space)).
Proof. repeat split; vm_compute; reflexivity. Qed.

(** White space of the input that is neither a space nor a tab. *)
Lemma is_space_range c :
  Unicode.is_space c = true →
  (c ≤ 0x20 ∨ c = 0x85 ∨ c = 0xA0 ∨ 0x1680 ≤ c)%N.
Proof.
  unfold Unicode.is_space.
  rewrite !orb_true_iff, !andb_true_iff, !N.leb_le, !N.eqb_eq. lia.
Qed.

Lemma lower_cp_outside c :
  (¬ (0x41 ≤ c ≤ 0x5A) → ¬ (0xC0 ≤ c ≤ 0xDE) → ¬ (0x400 ≤ c ≤ 0x42F) →
   Unicode.lower_cp c = c)%N.
Proof.
  intros H1 H2 H3. unfold Unicode.lower_cp.
  destruct (N.leb_spec 0x41 c), (N.leb_spec c 0x5A); cbn [andb]; [lia | | |];
    (destruct (N.leb_spec 0xC0 c), (N.leb_spec c 0xDE); cbn [andb];
     [destruct (N.eqb_spec c 0xD7); cbn [negb]; [| lia] | | |]);
    (destruct (N.leb_spec 0x400 c), (N.leb_spec c 0x40F); cbn [andb];
     [lia | | |]);
    (destruct (N.leb_spec 0x410 c), (N.leb_spec c 0x42F); cbn [andb];
     [lia | | |]); reflexivity.
Qed.

Lemma other_space_kept c :
  Unicode.is_space c = true → c ≠ 0x20%N → c ≠ 0x09%N →
  fold_cp c = c ∧ is_separator c = false ∧ digit123 c = None.
Proof.
  intros Hs H1 H2. apply is_space_range in Hs.
  assert (Hl : Unicode.lower_cp c = c) by (apply lower_cp_outside; lia).
  split; [| split].
  - unfold fold_cp. rewrite Hl.
    destruct (N.eqb_spec c 0x451); [lia | reflexivity].
  - unfold is_separator.
    repeat match goal with
           | |- context [(?a =? ?b)%N] => destruct (N.eqb_spec a b)
           end; cbn [orb]; first [reflexivity | lia].
  - unfold digit123.
    repeat match goal with
           | |- context [(?a =? ?b)%N] => destruct (N.eqb_spec a b)
           end; first [reflexivity | lia].
Qed.

Definition visible (s : pystr) : Prop :=
  Exists (fun x => Unicode.is_space x = false) s.

Lemma lstrip_visible a s :
  visible a → Unicode.lstrip (a ++ s) = Unicode.lstrip a ++ s.
Proof.
  intros Ha. rewrite lstrip_app.
  assert (Hne : Unicode.lstrip a ≠ []).
  { induction Ha as [x a Hx | x a _ IH]; cbn [Unicode.lstrip].
    - by rewrite Hx.
    - destruct (Unicode.is_space x); [exact IH | done]. }
  by destruct (Unicode.lstrip a).
Qed.

Lemma rstrip_visible p q :
  visible q → Unicode.rstrip (p ++ q) = p ++ Unicode.rstrip q.
Proof.
  intros Hq. unfold Unicode.rstrip.
  rewrite rev_app_distr, lstrip_visible, rev_app_distr, rev_involutive;
    [reflexivity |].
  unfold visible in *. apply Exists_exists in Hq as (x & Hin & Hx).
  apply Exists_exists. exists x. split; [| exact Hx].
  by apply list_elem_of_In, in_rev, list_elem_of_In in Hin.
Qed.

Lemma clean_token_internal a c b :
  Unicode.is_space c = true → c ≠ 0x20%N → c ≠ 0x09%N →
  visible a → visible b →
  _clean_token (a ++ c :: b)
  = normalize_body (Unicode.lstrip a) ++ c :: normalize_body (Unicode.rstrip b).
Proof.
  intros Hs H1 H2 Ha Hb.
  destruct (other_space_kept c Hs H1 H2) as (Hf & Hsep & _).
  rewrite clean_token_strip. unfold Unicode.strip.
  rewrite lstrip_visible by exact Ha.
  rewrite rstrip_visible by (by apply Exists_cons_tl).
  change (c :: b) with ([c] ++ b). rewrite rstrip_visible by exact Hb.
  rewrite !normalize_body_app. f_equal.
  change ([c]) with (c :: []) at 1. rewrite normalize_body_cons, Hf, Hsep.
  reflexivity.
Qed.

Definition no_space_b (nm : pystr) : bool :=
  forallb (fun ch => negb (Unicode.is_space ch)) nm.

Definition no_tier_end_b (nm : pystr) : bool :=
  match rev nm with
  | d :: _ => match digit123 d with Some _ => false | None => true end
  | [] => true
  end.

(** No alias contains white space or ends with a sub-tier digit. *)
Lemma alias_keys_shape :
  map_Forall (fun nm _ => no_space_b nm = true ∧ no_tier_end_b nm = true)
             ALIAS_TO_KEY.
Proof.
  apply (@bool_decide_unpack _ (map_Forall_dec _ _)). vm_compute. exact I.
Qed.

Lemma core_with_space_unknown token c :
  c ∈ token → Unicode.is_space c = true → digit123 c = None →
  ALIAS_TO_KEY !! core_of_token token = None.
Proof.
  intros Hin Hs Hd.
  destruct (ALIAS_TO_KEY !! core_of_token token) as [key |] eqn:Hk;
    [exfalso | reflexivity].
  destruct (alias_keys_shape _ _ Hk) as [HA HB]. clear Hk.
  assert (Hno : ∀ l, c ∈ l → no_space_b l = true → False).
  { intros l Hl E. unfold no_space_b in E.
    pose proof (proj1 (forallb_forall _ _) E c
                  (proj1 (list_elem_of_In _ _) Hl)) as Hc.
    cbv beta in Hc. rewrite Hs in Hc. discriminate Hc. }
  unfold core_of_token in HA, HB.
  destruct (search_tier token) as [t |] eqn:Ht; [| exact (Hno _ Hin HA)].
  unfold search_tier in Ht.
  destruct (rev token) as [| x before] eqn:Hr; [discriminate Ht |].
  assert (Htok : token = rev before ++ [x]).
  { rewrite <- (rev_involutive token), Hr. reflexivity. }
  subst token. rewrite removelast_last in HA, HB.
  destruct (digit123 x) as [t' |] eqn:Hx.
  - apply elem_of_app in Hin as [Hin | Hin]; [exact (Hno _ Hin HA) |].
    apply list_elem_of_singleton in Hin as ->. rewrite Hd in Hx.
    discriminate Hx.
  - destruct (x =? 10)%N; [| discriminate Ht].
    destruct before as [| d before']; [discriminate Ht |].
    unfold no_tier_end_b in HB. rewrite rev_involutive in HB.
    rewrite Ht in HB. discriminate HB.
Qed.

(** C8, amended: take a registered alias of a family, alone or followed by
    a sub-tier digit; rewrite any of its letters as a capital, or U+0435 as
    U+0451 or U+0401; insert spaces, tabs, hyphens, underscores and periods
    anywhere; surround the result with white space. The normaliser gives
    back the plain token, and the parser returns on the variant what it
    returns on the plain token, for the alias's family. White space other
    than the space and the tab is removed at the two ends only: when such a
    character stands inside a token, with a character that is not white
    space somewhere before it and somewhere after it, the normaliser keeps
    it and the parser raises the unrecognized-rank error. *)
Theorem alias_variants_parse_alike :
  (∀ key names nm sfx raw,
     (key, names) ∈ ALIASES → nm ∈ names → sfx ∈ suffixes →
     variant (nm ++ sfx) raw →
     _clean_token raw = nm ++ sfx
     ∧ ALIAS_TO_KEY !! token_core raw = Some key
     ∧ _parse_rank_token raw = _parse_rank_token (nm ++ sfx))
  ∧ (∀ a c b,
       Unicode.is_space c = true → c ≠ 0x20%N → c ≠ 0x09%N →
       visible a → visible b →
       c ∈ _clean_token (a ++ c :: b)
       ∧ _parse_rank_token (a ++ c :: b)
         = Raise (ValueError (msg_unrecognized (a ++ c :: b)))).
Proof.
  split.
  - intros key names nm sfx raw Hk Hn Hs Hv.
    pose proof (plain_token_in key names nm sfx Hk Hn Hs) as Hin.
    pose proof (proj1 (Forall_forall _ _) plain_tokens_chars _ Hin) as Hp.
    pose proof (proj1 (Forall_forall _ _) plain_tokens_lookup _ Hin) as Hl.
    cbn [fst snd] in Hp, Hl.
    pose proof (variant_clean _ _ Hp Hv) as Hc.
    pose proof (variant_clean _ _ Hp (variant_refl (nm ++ sfx))) as Hc'.
    assert (Hcore : ALIAS_TO_KEY !! token_core raw = Some key).
    { rewrite token_core_clean, Hc. exact Hl. }
    split; [exact Hc |]. split; [exact Hcore |].
    apply (parse_by_clean raw (nm ++ sfx) key); [| exact Hcore].
    rewrite Hc, Hc'. reflexivity.
  - intros a c b Hs H1 H2 Ha Hb.
    pose proof (clean_token_internal a c b Hs H1 H2 Ha Hb) as Hc.
    assert (Hin : c ∈ _clean_token (a ++ c :: b)).
    { rewrite Hc. apply elem_of_app. right. by left. }
    split; [exact Hin |].
    destruct (other_space_kept c Hs H1 H2) as (_ & _ & Hd).
    pose proof (core_with_space_unknown _ c Hin Hs Hd) as Hk.
    rewrite <- token_core_clean in Hk.
    pose proof (parse_rank_token_cases (a ++ c :: b)) as Hp.
    rewrite Hk in Hp. exact Hp.
Qed.

Lemma alias_variants_parse_alike_witness :
  variant (u "diamond" ++ u "2")
          (u " " ++ u "Di.a-Mo" ++ [0x09%N] ++ u "nd_ 2" ++ [0x0A%N])
  ∧ _parse_rank_token
      (u " " ++ u "Di.a-Mo" ++ [0x09%N] ++ u "nd_ 2" ++ [0x0A%N])
    = _parse_rank_token (u "diamond" ++ u "2")
  ∧ _parse_rank_token (u "diamond" ++ 0xA0%N :: u "2")
    = Raise (ValueError (msg_unrecognized (u "diamond" ++ 0xA0%N :: u "2"))).
Proof.
  assert (Hv : variant (u "diamond" ++ u "2")
                 (u " " ++ u "Di.a-Mo" ++ [0x09%N] ++ u "nd_ 2" ++ [0x0A%N])).
  { exists (u " "), (u "Di.a-Mo" ++ [0x09%N] ++ u "nd_ 2"), [0x0A%N].
    split; [by rewrite <- !app_assoc |].
    split; [repeat constructor |]. split; [repeat constructor |].
    vm_compute.
    repeat first
      [ apply decorated_nil
      | apply decorated_char;
        [first [apply written_same | apply written_upper] |]
      | apply decorated_sep;
        [unfold insertable; refine (bool_decide_unpack _ _);
         vm_compute; exact I |] ]. }
  split; [exact Hv |]. split.
  - refine (proj2 (proj2 (proj1 alias_variants_parse_alike
      "diamond"%string [u "алмаз"; u "даймонд"; u "diamond"; u "д"]
      (u "diamond") (u "2") _ _ _ _ Hv)));
      refine (bool_decide_unpack _ _); vm_compute; exact I.
  - refine (proj2 (proj2 alias_variants_parse_alike
      (u "diamond") 0xA0%N (u "2") _ _ _ _ _)).
    + reflexivity.
    + discriminate.
    + discriminate.
    + apply Exists_cons_hd. reflexivity.
    + apply Exists_cons_hd. reflexivity.
Defined.

(* ===================================================================== *)
(** ** Aggregator: what a run returns                                      *)
(* ===================================================================== *)

(** The scale value and the label the loop computes for one token. *)
Definition token_value (flag : bool) (raw : pystr) : result Z :=
  '(key, tier, _) ← _parse_rank_token raw;
  _rank_to_number key tier flag.

Definition token_label (raw : pystr) : result pystr :=
  '(key, tier, _) ← _parse_rank_token raw;
  rank_label key tier.

Lemma first_error_None ranks :
  first_error ranks = None ↔
  Forall (fun raw => is_ok (_parse_rank_token raw) = true) ranks.
Proof.
  induction ranks as [| raw rest IH]; cbn [first_error].
  - split; [constructor | reflexivity].
  - destruct (_parse_rank_token raw) as [? | e] eqn:Hp.
    + rewrite IH. split.
      * intros H. constructor; [rewrite Hp; reflexivity | exact H].
      * intros H. apply Forall_cons in H as [_ H]. exact H.
    + split; [intros H; discriminate H |].
      intros H. apply Forall_cons in H as [H _]. rewrite Hp in H.
      discriminate H.
Qed.

Lemma loop_trace flag ranks st :
  first_error ranks = None →
  ∃ st' vals names,
    loop flag ranks st = Ok st'
    ∧ values st' = values st ++ vals
    ∧ norm_ru st' = norm_ru st ++ names
    ∧ Forall2 (fun raw v => token_value flag raw = Ok v) ranks vals
    ∧ Forall2 (fun raw n => token_label raw = Ok n) ranks names
    ∧ Forall (in_scale flag) vals.
Proof.
  revert st. induction ranks as [| raw rest IH]; intros st Hfe.
  - exists st, [], []. rewrite !app_nil_r.
    repeat (split; [first [reflexivity | constructor] |]). constructor.
  - cbn [first_error] in Hfe. cbn [loop].
    pose proof (loop_body_cases flag st raw) as Hb.
    destruct (_parse_rank_token raw) as [[[key tier] ru_base] | e] eqn:Hp;
      [| discriminate Hfe].
    destruct Hb as (val & name & Hval & Hs & Hname & ->).
    unfold mbind at 1, result_bind at 1.
    set (st1 := {| parsed := _; values := _; norm_ru := _ |}).
    destruct (IH st1 Hfe) as (st' & vals & names & Hl & Hv & Hn & Hvs & Hns & Ha).
    exists st', (val :: vals), (name :: names).
    split; [exact Hl |].
    split; [rewrite Hv; subst st1; cbn [values]; by rewrite <- app_assoc |].
    split; [rewrite Hn; subst st1; cbn [norm_ru]; by rewrite <- app_assoc |].
    split; [constructor; [unfold token_value; rewrite Hp; exact Hval
                         | exact Hvs] |].
    split; [constructor; [unfold token_label; rewrite Hp; exact Hname
                         | exact Hns] |].
    constructor; [exact Hs | exact Ha].
Qed.

(** The float mean and the rounded mean of a sum of scale values. *)
Lemma compute_average_details_trace ranks flag :
  length ranks = 5%nat →
  first_error ranks = None →
  ∃ names vals avg final_num final_ru,
    compute_average_details ranks flag = Ok (names, vals, avg, final_ru)
    ∧ Forall2 (fun raw v => token_value flag raw = Ok v) ranks vals
    ∧ Forall2 (fun raw n => token_label raw = Ok n) ranks names
    ∧ Forall (in_scale flag) vals
    ∧ Float.int_truediv (sum vals) (Float.lit 5 0) = Ok avg
    ∧ _round_half_up avg = Ok final_num
    ∧ final_num = (2 * sum vals + 5) `div` 10
    ∧ in_scale flag final_num
    ∧ _number_to_ru final_num flag = Ok final_ru.
Proof.
  intros Hlen Hfe. unfold compute_average_details. rewrite Hlen.
  cbn [Nat.eqb negb].
  destruct (loop_trace flag ranks
              {| parsed := []; values := []; norm_ru := [] |} Hfe)
    as (st' & vals & names & -> & Hv & Hn & Hvs & Hns & Hall).
  cbn [values norm_ru app] in Hv, Hn.
  unfold mbind at 1, result_bind at 1. rewrite Hv, Hn.
  pose proof (sum_in_scale flag vals Hall) as Hsum.
  rewrite <- (Forall2_length _ _ _ Hvs), Hlen in Hsum.
  pose proof (ceiling_le_25 flag) as Hc.
  destruct (mean_round_spec (sum vals)) as (avg & r & Ha & Hr & Hnear & Hb);
    [lia |].
  assert (Hin : in_scale flag r) by (unfold in_scale; lia).
  destruct (number_to_ru_in_range flag r Hin) as (_ & _ & label & _ & _ & _ & Hi).
  exists names, vals, avg, r, label.
  rewrite Ha. unfold mbind, result_bind. rewrite Hr, Hi.
  rewrite nearest_half_up_fifths in Hnear.
  repeat (split; [first [reflexivity | assumption] |]). reflexivity.
Qed.

Lemma compute_average_details_Ok_inv ranks flag out :
  compute_average_details ranks flag = Ok out →
  length ranks = 5%nat ∧ first_error ranks = None.
Proof.
  intros Hc.
  destruct (decide (length ranks = 5%nat)) as [Hlen | Hlen].
  2: { rewrite (compute_average_details_wrong_count _ _ Hlen) in Hc.
       discriminate Hc. }
  split; [exact Hlen |].
  pose proof (compute_average_details_spec ranks flag Hlen) as Hs.
  destruct (first_error ranks) as [e |]; [| reflexivity].
  rewrite Hs in Hc. discriminate Hc.
Qed.

(* ===================================================================== *)
(** ** Further properties of the parser and the aggregator                 *)
(* ===================================================================== *)

(** X1: a token that parses gives a structured rank of the scale: the key
    is the family its core string is an alias of, a family of [ORDER] comes
    with the extracted sub-tier, which is 1, 2 or 3, the top family comes
    without sub-tier, and the third component is the family's entry of
    [RU_NAME]. *)
Theorem parse_rank_token_returns :
  ∀ raw key tier ru_base,
    _parse_rank_token raw = Ok (key, tier, ru_base) →
    valid_rank key tier
    ∧ ALIAS_TO_KEY !! token_core raw = Some key
    ∧ RU_NAME !! key = Some ru_base
    ∧ (key ≠ "radiant"%string → tier = token_tier raw).
Proof.
  intros raw key tier ru_base Hp.
  destruct (parse_rank_token_ok _ _ _ _ Hp) as [Hv Hru].
  split; [exact Hv |].
  pose proof (parse_rank_token_cases raw) as Hc.
  destruct (ALIAS_TO_KEY !! token_core raw) as [key' |].
  - destruct Hc as (ru' & _ & Hc). case_decide as Hr.
    + rewrite Hp in Hc. injection Hc as -> _ _.
      split; [reflexivity |]. split; [exact Hru |]. intros Hne. destruct (Hne Hr).
    + destruct Hc as [_ Hc]. destruct (token_tier raw) as [t |].
      * destruct Hc as [_ Hc]. rewrite Hp in Hc. injection Hc as -> -> _.
        split; [reflexivity |]. split; [exact Hru |]. reflexivity.
      * rewrite Hp in Hc. discriminate Hc.
  - rewrite Hp in Hc. discriminate Hc.
Qed.

Lemma parse_rank_token_returns_witness :
  _parse_rank_token (u "Г-1") = Ok ("gold"%string, Some 1, u "Золото")
  ∧ valid_rank "gold" (Some 1)
  ∧ ALIAS_TO_KEY !! token_core (u "Г-1") = Some "gold"%string.
Proof.
  assert (Hp : _parse_rank_token (u "Г-1")
               = Ok ("gold"%string, Some 1, u "Золото"))
    by (vm_compute; reflexivity).
  split; [exact Hp |].
  pose proof (parse_rank_token_returns _ _ _ _ Hp) as (Hv & Hk & _).
  split; [exact Hv | exact Hk].
Defined.

(** The errors of the parser, with the family of a missing sub-tier. *)
Lemma parse_rank_token_raises raw e :
  _parse_rank_token raw = Raise e →
  e = ValueError (msg_unrecognized raw)
  ∨ ∃ key ru_base,
      key ∈ ORDER ∧ RU_NAME !! key = Some ru_base
      ∧ ALIAS_TO_KEY !! token_core raw = Some key
      ∧ e = ValueError (msg_missing_tier ru_base).
Proof.
  intros He. pose proof (parse_rank_token_cases raw) as Hc.
  destruct (ALIAS_TO_KEY !! token_core raw) as [key |].
  - destruct Hc as (ru_base & Hru & Hc). case_decide.
    + rewrite He in Hc. discriminate Hc.
    + destruct Hc as [Hord Hc]. destruct (token_tier raw).
      * destruct Hc as [_ Hc]. rewrite He in Hc. discriminate Hc.
      * right. exists key, ru_base. rewrite He in Hc. injection Hc as ->.
        repeat (split; [first [reflexivity | assumption] |]). reflexivity.
  - left. rewrite He in Hc. injection Hc as ->. reflexivity.
Qed.

(** X2: every failure of the aggregator is a [ValueError] with one of
    three messages: the wrong-count message when the input has not 5
    entries; otherwise the unrecognized-rank message of one of the entries,
    or the missing-sub-tier message of a family of [ORDER]. It raises no
    other exception (no TypeError from [int(None)], no KeyError or IndexError
    from the tables, no float error). *)
Theorem compute_average_details_raises :
  ∀ ranks flag e,
    compute_average_details ranks flag = Raise e →
    (length ranks ≠ 5%nat ∧ e = ValueError (msg_wrong_count (length ranks)))
    ∨ (length ranks = 5%nat
       ∧ ∃ raw, raw ∈ ranks
           ∧ _parse_rank_token raw = Raise e
           ∧ (e = ValueError (msg_unrecognized raw)
              ∨ ∃ key ru_base,
                  key ∈ ORDER ∧ RU_NAME !! key = Some ru_base
                  ∧ e = ValueError (msg_missing_tier ru_base))).
Proof.
  intros ranks flag e Hc.
  destruct (decide (length ranks = 5%nat)) as [Hlen | Hlen].
  - right. split; [exact Hlen |].
    pose proof (compute_average_details_spec ranks flag Hlen) as Hs.
    destruct (first_error ranks) as [e' |] eqn:Hfe.
    + rewrite Hs in Hc. injection Hc as ->.
      destruct (first_error_Some _ _ Hfe) as (raw & Hin & Hraw).
      exists raw. split; [exact Hin |]. split; [exact Hraw |].
      destruct (parse_rank_token_raises _ _ Hraw)
        as [E | (key & ru & Hk & Hru & _ & E)]; [by left |].
      right. exists key, ru. repeat (split; [assumption |]). exact E.
    + destruct Hs as (? & ? & ? & ? & ? & Hs & _). rewrite Hs in Hc.
      discriminate Hc.
  - left. split; [exact Hlen |].
    rewrite (compute_average_details_wrong_count _ _ Hlen) in Hc.
    injection Hc as <-. reflexivity.
Qed.

Lemma compute_average_details_raises_witness :
  compute_average_details
    [u "д1"; u "аск1"; u "diamond"; u "galaxy1"; u "г1"] true
  = Raise (ValueError (msg_missing_tier (u "Алмаз")))
  ∧ ((length [u "д1"; u "аск1"; u "diamond"; u "galaxy1"; u "г1"] ≠ 5%nat
      ∧ ValueError (msg_missing_tier (u "Алмаз"))
        = ValueError (msg_wrong_count 5))
     ∨ (length [u "д1"; u "аск1"; u "diamond"; u "galaxy1"; u "г1"] = 5%nat
        ∧ ∃ raw, raw ∈ [u "д1"; u "аск1"; u "diamond"; u "galaxy1"; u "г1"]
            ∧ _parse_rank_token raw
              = Raise (ValueError (msg_missing_tier (u "Алмаз")))
            ∧ (ValueError (msg_missing_tier (u "Алмаз"))
               = ValueError (msg_unrecognized raw)
               ∨ ∃ key ru_base,
                   key ∈ ORDER ∧ RU_NAME !! key = Some ru_base
                   ∧ ValueError (msg_missing_tier (u "Алмаз"))
                     = ValueError (msg_missing_tier ru_base)))).
Proof.
  assert (Hc : compute_average_details
                 [u "д1"; u "аск1"; u "diamond"; u "galaxy1"; u "г1"] true
               = Raise (ValueError (msg_missing_tier (u "Алмаз"))))
    by (vm_compute; reflexivity).
  split; [exact Hc |].
  exact (compute_average_details_raises _ _ _ Hc).
Defined.

(** X3: on success the aggregator returns, in the order of the input, the
    label and the scale value of each of the five tokens, the float quotient
    of the sum of the values by 5.0, and the label of the integer nearest to
    the exact mean, halves going up: with s the sum of the values this is
    the integer r with 2s - 5 < 10r <= 2s + 5. *)
Theorem compute_average_details_returns :
  ∀ ranks flag names vals avg final_ru,
    compute_average_details ranks flag = Ok (names, vals, avg, final_ru) →
    length names = 5%nat ∧ length vals = 5%nat
    ∧ Forall2 (fun raw n => token_label raw = Ok n) ranks names
    ∧ Forall2 (fun raw v => token_value flag raw = Ok v) ranks vals
    ∧ Float.int_truediv (sum vals) (Float.lit 5 0) = Ok avg
    ∧ ∃ r, _round_half_up avg = Ok r
           ∧ 2 * sum vals - 5 < 10 * r ≤ 2 * sum vals + 5
           ∧ r = nearest_half_up (sum vals # 5)
           ∧ _number_to_ru r flag = Ok final_ru.
Proof.
  intros ranks flag names vals avg final_ru Hc.
  destruct (compute_average_details_Ok_inv _ _ _ Hc) as [Hlen Hfe].
  destruct (compute_average_details_trace ranks flag Hlen Hfe)
    as (names' & vals' & avg' & r & label & Hs & Hvs & Hns & _ & Ha & Hr
        & Hnear & _ & Hi).
  rewrite Hs in Hc. injection Hc as -> -> -> ->.
  split; [by rewrite <- (Forall2_length _ _ _ Hns) |].
  split; [by rewrite <- (Forall2_length _ _ _ Hvs) |].
  split; [exact Hns |]. split; [exact Hvs |]. split; [exact Ha |].
  exists r. split; [exact Hr |].
  split.
  { pose proof (Z.div_mod (2 * sum vals + 5) 10).
    pose proof (Z.mod_pos_bound (2 * sum vals + 5) 10). lia. }
  split; [by rewrite nearest_half_up_fifths | exact Hi].
Qed.

Lemma compute_average_details_returns_witness :
  compute_average_details
    [u "Radiant"; u "Immortal 3"; u "Immortal 3"; u "Ascendant 3";
     u "Diamond 3"] true
  = Ok ([u "Радиант"; u "Иммортал 3"; u "Иммортал 3"; u "Асцендант 3";
         u "Алмаз 3"],
        [25; 24; 24; 21; 18],
        S754_finite false 6305039478318694 (-48),
        u "Иммортал 1")
  ∧ ∃ r, _round_half_up (S754_finite false 6305039478318694 (-48)) = Ok r
         ∧ 2 * sum [25; 24; 24; 21; 18] - 5 < 10 * r
             ≤ 2 * sum [25; 24; 24; 21; 18] + 5
         ∧ r = nearest_half_up (sum [25; 24; 24; 21; 18] # 5)
         ∧ _number_to_ru r true = Ok (u "Иммортал 1").
Proof.
  assert (Hc : compute_average_details
    [u "Radiant"; u "Immortal 3"; u "Immortal 3"; u "Ascendant 3";
     u "Diamond 3"] true
  = Ok ([u "Радиант"; u "Иммортал 3"; u "Иммортал 3"; u "Асцендант 3";
         u "Алмаз 3"],
        [25; 24; 24; 21; 18],
        S754_finite false 6305039478318694 (-48),
        u "Иммортал 1")) by (vm_compute; reflexivity).
  split; [exact Hc |].
  exact (proj2 (proj2 (proj2 (proj2 (proj2
    (compute_average_details_returns _ _ _ _ _ _ Hc)))))).
Defined.

Lemma sum_cons v vals : sum (v :: vals) = v + sum vals.
Proof. unfold sum. cbn [foldl]. rewrite foldl_add_shift. unfold sum. lia. Qed.

Lemma sum_Permutation vals vals' : vals ≡ₚ vals' → sum vals = sum vals'.
Proof.
  induction 1 as [| v l l' _ IH | v w l | l l' l'' _ IH1 _ IH2].
  - reflexivity.
  - rewrite !sum_cons, IH. reflexivity.
  - rewrite !sum_cons. lia.
  - by rewrite IH1.
Qed.

Lemma sum_between lo hi vals :
  Forall (fun v => lo ≤ v ≤ hi) vals →
  Z.of_nat (length vals) * lo ≤ sum vals ≤ Z.of_nat (length vals) * hi.
Proof.
  induction 1 as [| v vals Hv _ IH].
  - cbn. lia.
  - rewrite sum_cons. cbn [length]. lia.
Qed.

Lemma sum_le vals vals' :
  Forall2 Z.le vals vals' → sum vals ≤ sum vals'.
Proof.
  induction 1 as [| v v' vals vals' Hv _ IH].
  - reflexivity.
  - rewrite !sum_cons. lia.
Qed.

(** The scale value of a token as a function, 0 when it does not parse. *)
Definition value_of (flag : bool) (raw : pystr) : Z :=
  match token_value flag raw with Ok v => v | Raise _ => 0 end.

Definition label_of (raw : pystr) : pystr :=
  match token_label raw with Ok n => n | Raise _ => [] end.

Lemma token_values_map flag ranks vals :
  Forall2 (fun raw v => token_value flag raw = Ok v) ranks vals →
  vals = map (value_of flag) ranks.
Proof.
  induction 1 as [| raw v ranks vals Hv _ IH]; [reflexivity |].
  cbn [map]. unfold value_of at 1. rewrite Hv, IH. reflexivity.
Qed.

Lemma token_labels_map ranks names :
  Forall2 (fun raw n => token_label raw = Ok n) ranks names →
  names = map label_of ranks.
Proof.
  induction 1 as [| raw n ranks names Hn _ IH]; [reflexivity |].
  cbn [map]. unfold label_of at 1. rewrite Hn, IH. reflexivity.
Qed.

(** X4: the order of the five tokens does not matter for the result: when
    the aggregator succeeds on a list it succeeds on every permutation of it,
    with the same float mean and the same final label, and with the labels
    and the values permuted alike. *)
Theorem compute_average_details_permutation :
  ∀ ranks ranks' flag names vals avg final_ru,
    ranks ≡ₚ ranks' →
    compute_average_details ranks flag = Ok (names, vals, avg, final_ru) →
    ∃ names' vals',
      compute_average_details ranks' flag = Ok (names', vals', avg, final_ru)
      ∧ names ≡ₚ names' ∧ vals ≡ₚ vals'.
Proof.
  intros ranks ranks' flag names vals avg final_ru Hperm Hc.
  destruct (compute_average_details_Ok_inv _ _ _ Hc) as [Hlen Hfe].
  assert (Hlen' : length ranks' = 5%nat)
    by (rewrite <- Hlen; symmetry; by apply Permutation_length).
  assert (Hfe' : first_error ranks' = None).
  { apply first_error_None. apply first_error_None in Hfe.
    by rewrite <- Hperm. }
  destruct (compute_average_details_trace ranks flag Hlen Hfe)
    as (names0 & vals0 & avg0 & r0 & label0 & Hs & Hvs & Hns & _ & Ha & Hr
        & Hnear & _ & Hi).
  rewrite Hs in Hc. injection Hc as -> -> -> ->.
  destruct (compute_average_details_trace ranks' flag Hlen' Hfe')
    as (names' & vals' & avg' & r' & label' & Hs' & Hvs' & Hns' & _ & Ha' & Hr'
        & Hnear' & _ & Hi').
  apply token_values_map in Hvs, Hvs'. apply token_labels_map in Hns, Hns'.
  assert (Hpv : vals ≡ₚ vals') by (subst vals vals'; by apply Permutation_map).
  assert (Hpn : names ≡ₚ names')
    by (subst names names'; by apply Permutation_map).
  assert (Hsum : sum vals' = sum vals) by (symmetry; by apply sum_Permutation).
  rewrite Hsum in Ha', Hnear'. rewrite Ha in Ha'. injection Ha' as <-.
  rewrite Hr in Hr'. injection Hr' as <-. rewrite Hi in Hi'.
  injection Hi' as <-.
  exists names', vals'. split; [exact Hs' |]. split; [exact Hpn | exact Hpv].
Qed.

Lemma compute_average_details_permutation_witness :
  ∃ names' vals',
    compute_average_details [u "аск1"; u "д1"; u "б1"; u "с1"; u "г1"] true
    = Ok (names', vals', S754_finite false 6305039478318694 (-49),
          u "Золото 2")
    ∧ [u "Алмаз 1"; u "Асцендант 1"; u "Бронза 1"; u "Серебро 1";
       u "Золото 1"] ≡ₚ names'
    ∧ [16; 19; 4; 7; 10] ≡ₚ vals'.
Proof.
  apply (compute_average_details_permutation
           [u "д1"; u "аск1"; u "б1"; u "с1"; u "г1"]
           [u "аск1"; u "д1"; u "б1"; u "с1"; u "г1"] true).
  - apply perm_swap.
  - vm_compute. reflexivity.
Defined.

Lemma round_div_mono s s' : s ≤ s' → (2 * s + 5) `div` 10 ≤ (2 * s' + 5) `div` 10.
Proof. intros H. apply Z.div_le_mono; lia. Qed.

(** X5: the result is monotone in the members' ranks: when two runs
    succeed and each scale value of the first is at most the corresponding
    value of the second, the rounded mean of the first, whose label is
    returned, is at most the rounded mean of the second. *)
Theorem compute_average_details_monotone :
  ∀ ranks ranks' flag names vals avg final_ru names' vals' avg' final_ru',
    compute_average_details ranks flag = Ok (names, vals, avg, final_ru) →
    compute_average_details ranks' flag = Ok (names', vals', avg', final_ru') →
    Forall2 Z.le vals vals' →
    ∃ r r',
      _round_half_up avg = Ok r ∧ _number_to_ru r flag = Ok final_ru
      ∧ _round_half_up avg' = Ok r' ∧ _number_to_ru r' flag = Ok final_ru'
      ∧ r ≤ r'.
Proof.
  intros ranks ranks' flag names vals avg final_ru names' vals' avg' final_ru'
    Hc Hc' Hle.
  destruct (compute_average_details_Ok_inv _ _ _ Hc) as [Hlen Hfe].
  destruct (compute_average_details_Ok_inv _ _ _ Hc') as [Hlen' Hfe'].
  destruct (compute_average_details_trace ranks flag Hlen Hfe)
    as (? & ? & ? & r & ? & Hs & _ & _ & _ & _ & Hr & Hnear & _ & Hi).
  rewrite Hs in Hc. injection Hc as -> -> -> ->.
  destruct (compute_average_details_trace ranks' flag Hlen' Hfe')
    as (? & ? & ? & r' & ? & Hs' & _ & _ & _ & _ & Hr' & Hnear' & _ & Hi').
  rewrite Hs' in Hc'. injection Hc' as -> -> -> ->.
  exists r, r'. repeat (split; [assumption |]).
  rewrite Hnear, Hnear'. apply round_div_mono. by apply sum_le.
Qed.

Lemma compute_average_details_monotone_witness :
  ∃ r r',
    _round_half_up (S754_finite false 6305039478318694 (-49)) = Ok r
    ∧ _number_to_ru r true = Ok (u "Золото 2")
    ∧ _round_half_up (S754_finite false 6755399441055744 (-49)) = Ok r'
    ∧ _number_to_ru r' true = Ok (u "Золото 3")
    ∧ r ≤ r'.
Proof.
  apply (compute_average_details_monotone
           [u "д1"; u "аск1"; u "б1"; u "с1"; u "г1"]
           [u "д1"; u "аск2"; u "б3"; u "с1"; u "г2"] true
           [u "Алмаз 1"; u "Асцендант 1"; u "Бронза 1"; u "Серебро 1";
            u "Золото 1"]
           [16; 19; 4; 7; 10]
           (S754_finite false 6305039478318694 (-49)) (u "Золото 2")
           [u "Алмаз 1"; u "Асцендант 2"; u "Бронза 3"; u "Серебро 1";
            u "Золото 2"]
           [16; 20; 6; 7; 11]
           (S754_finite false 6755399441055744 (-49)) (u "Золото 3")).
  - vm_compute. reflexivity.
  - vm_compute. reflexivity.
  - repeat constructor; lia.
Defined.

(** X6: the rounded mean lies between the lowest and the highest of the
    five scale values: on success, with every value in [lo, hi], the integer
    whose label is returned is in [lo, hi]. *)
Theorem compute_average_details_between :
  ∀ ranks flag names vals avg final_ru lo hi,
    compute_average_details ranks flag = Ok (names, vals, avg, final_ru) →
    Forall (fun v => lo ≤ v ≤ hi) vals →
    ∃ r, _round_half_up avg = Ok r
         ∧ _number_to_ru r flag = Ok final_ru
         ∧ lo ≤ r ≤ hi.
Proof.
  intros ranks flag names vals avg final_ru lo hi Hc Hb.
  destruct (compute_average_details_Ok_inv _ _ _ Hc) as [Hlen Hfe].
  destruct (compute_average_details_trace ranks flag Hlen Hfe)
    as (? & ? & ? & r & ? & Hs & Hvs & _ & _ & _ & Hr & Hnear & _ & Hi).
  rewrite Hs in Hc. injection Hc as -> -> -> ->.
  exists r. split; [exact Hr |]. split; [exact Hi |].
  pose proof (sum_between lo hi vals Hb) as Hsum.
  rewrite <- (Forall2_length _ _ _ Hvs), Hlen in Hsum.
  pose proof (Z.div_mod (2 * sum vals + 5) 10).
  pose proof (Z.mod_pos_bound (2 * sum vals + 5) 10). lia.
Qed.

Lemma compute_average_details_between_witness :
  ∃ r, _round_half_up (S754_finite false 6305039478318694 (-49)) = Ok r
       ∧ _number_to_ru r false = Ok (u "Золото 2")
       ∧ 4 ≤ r ≤ 19.
Proof.
  apply (compute_average_details_between
           [u "д1"; u "аск1"; u "б1"; u "с1"; u "г1"] false
           [u "Алмаз 1"; u "Асцендант 1"; u "Бронза 1"; u "Серебро 1";
            u "Золото 1"]
           [16; 19; 4; 7; 10]).
  - vm_compute. reflexivity.
  - repeat constructor; lia.
Defined.

(* ===================================================================== *)
(** ** Labels as input                                                     *)
(* ===================================================================== *)

Lemma valid_rank_roundtrips key tier flag :
  valid_rank key tier → ordinary_rank key tier ∨ flag = true →
  ∃ n, _rank_to_number key tier flag = Ok n
       ∧ _number_to_ru n flag = rank_label key tier.
Proof.
  intros Hv Hd.
  assert (Hc : ordinary_rank key tier ∨ (top_rank key tier ∧ flag = true)).
  { destruct Hd as [Ho | ->]; [by left |]. destruct Hv; [by left | by right]. }
  clear Hv Hd. destruct Hc as [[Hk (t & -> & Ht)] | [[-> ->] ->]].
  - apply elem_of_ORDER in Hk as [i Hi].
    case_order Hi; case_tier t Ht; destruct flag;
      (eexists; split; reflexivity).
  - exists 25. split; reflexivity.
Qed.

(** The label of a structured rank parses to this rank. *)
Lemma rank_label_parses key tier name :
  valid_rank key tier → rank_label key tier = Ok name →
  ∃ ru_base, _parse_rank_token name = Ok (key, tier, ru_base).
Proof.
  intros [[Hk (t & -> & Ht)] | [-> ->]] Hl.
  - apply elem_of_ORDER in Hk as [i Hi].
    case_order Hi; case_tier t Ht; vm_compute in Hl; injection Hl as <-;
      (eexists; vm_compute; reflexivity).
  - vm_compute in Hl. injection Hl as <-. eexists. vm_compute. reflexivity.
Qed.

Lemma token_label_fixed raw name :
  token_label raw = Ok name →
  token_label name = Ok name
  ∧ ∀ flag, token_value flag name = token_value flag raw.
Proof.
  unfold token_label at 1. intros Hl.
  destruct (_parse_rank_token raw) as [[[key tier] ru_base] | e] eqn:Hp;
    [| discriminate Hl].
  cbn [mbind result_bind] in Hl.
  apply parse_rank_token_ok in Hp as Hv. destruct Hv as [Hv _].
  destruct (rank_label_parses key tier name Hv Hl) as [ru' Hp'].
  split.
  - unfold token_label. rewrite Hp'. exact Hl.
  - intros flag. unfold token_value. rewrite Hp, Hp'. reflexivity.
Qed.

(** X7: every label the inverse mapping returns is itself an accepted
    token: for every integer and either flag the label parses, under the
    same flag its scale value is the clamped integer, and its own label is
    the label again. *)
Theorem number_to_ru_label_parses :
  ∀ num flag,
    ∃ label,
      _number_to_ru num flag = Ok label
      ∧ token_value flag label = Ok (clamp flag num)
      ∧ token_label label = Ok label.
Proof.
  intros num flag.
  destruct (number_to_ru_in_range flag (clamp flag num) (clamp_range flag num))
    as (key & tier & label & Hv & Hf & Hl & Hi).
  exists label. rewrite number_to_ru_clamp. split; [exact Hi |].
  destruct (rank_label_parses key tier label Hv Hl) as [ru Hp].
  unfold token_value, token_label. rewrite Hp.
  split; [exact Hf | exact Hl].
Qed.

Lemma number_to_ru_value flag n label :
  in_scale flag n → _number_to_ru n flag = Ok label →
  token_value flag label = Ok n.
Proof.
  intros Hn Hl.
  destruct (number_to_ru_in_range flag n Hn)
    as (key & tier & label' & Hv & Hf & Hl' & Hi).
  rewrite Hi in Hl. injection Hl as ->.
  destruct (rank_label_parses key tier label Hv Hl') as [ru Hp].
  unfold token_value. rewrite Hp. exact Hf.
Qed.

(** X8: the labels of the scale are pairwise distinct: two integers of
    [1, ceiling] with the same label under a flag are equal. *)
Theorem number_to_ru_injective :
  ∀ flag n m,
    1 ≤ n ≤ ceiling flag → 1 ≤ m ≤ ceiling flag →
    _number_to_ru n flag = _number_to_ru m flag →
    n = m.
Proof.
  intros flag n m Hn Hm E.
  destruct (number_to_ru_in_range flag n Hn) as (_ & _ & label & _ & _ & _ & Hi).
  pose proof (number_to_ru_value flag n label Hn Hi) as Hvn.
  rewrite E in Hi.
  pose proof (number_to_ru_value flag m label Hm Hi) as Hvm.
  rewrite Hvn in Hvm. injection Hvm as ->. reflexivity.
Qed.

Lemma number_to_ru_injective_witness :
  1 ≤ 24 ≤ ceiling false ∧ 1 ≤ 24 ≤ ceiling false ∧ 24 = 24.
Proof.
  assert (H : 1 ≤ 24 ≤ ceiling false) by (unfold ceiling, MAX_WITHOUT_RADIANT; lia).
  split; [exact H |]. split; [exact H |].
  exact (number_to_ru_injective false 24 24 H H eq_refl).
Defined.

Definition is_radiant_label (r : result pystr) : bool :=
  match r with
  | Ok label => bool_decide (label = u "Радиант")
  | Raise _ => false
  end.

Lemma ordinary_labels_not_radiant flag :
  Forall (fun n => is_radiant_label (_number_to_ru n flag) = false)
         (seqZ 1 24).
Proof.
  destruct flag; refine (bool_decide_unpack _ _); vm_compute; exact I.
Qed.

(** X9: the inverse mapping returns the top family's name exactly when the
    flag includes the top family and the integer is at least 25; with the
    flag excluding it the name is returned for no integer. *)
Theorem number_to_ru_radiant_iff :
  ∀ num flag,
    _number_to_ru num flag = Ok (u "Радиант") ↔ flag = true ∧ 25 ≤ num.
Proof.
  intros num flag. rewrite number_to_ru_clamp.
  pose proof (clamp_range flag num) as Hr.
  destruct (decide (clamp flag num = 25)) as [E | E].
  - rewrite E. destruct flag.
    + split; [| reflexivity]. intros _. split; [reflexivity |].
      unfold clamp, ceiling, RADIANT_VALUE in E. lia.
    + unfold ceiling, MAX_WITHOUT_RADIANT in Hr. lia.
  - assert (Hin : clamp flag num ∈ seqZ 1 24).
    { apply elem_of_seqZ. pose proof (ceiling_le_25 flag). lia. }
    pose proof (proj1 (Forall_forall _ _) (ordinary_labels_not_radiant flag)
                  _ Hin) as Hn.
    cbv beta in Hn. split.
    + intros Hl. rewrite Hl in Hn. vm_compute in Hn. discriminate Hn.
    + intros [-> Hge]. unfold clamp, ceiling, RADIANT_VALUE in E. lia.
Qed.

Lemma token_ok_parses flag raw v :
  token_value flag raw = Ok v → is_ok (_parse_rank_token raw) = true.
Proof.
  unfold token_value. destruct (_parse_rank_token raw); [reflexivity |].
  intros H. discriminate H.
Qed.

Lemma repeat_five {A} (x : A) (l : list A) :
  length l = 5%nat → Forall (fun y => y = x) l → l = [x; x; x; x; x].
Proof.
  intros Hlen H.
  do 5 (destruct l as [| ? l]; [discriminate Hlen |];
        apply Forall_cons in H as [-> H]).
  destruct l; [reflexivity | discriminate Hlen].
Qed.

(** X10: a team of five identical tokens gets the label of this token's
    scale value. For an ordinary rank, and for the top family when it is
    included, this is the rank's own label; five times the top family with
    the top family excluded gives the third sub-tier of the highest ordinary
    family. *)
Theorem compute_average_details_uniform :
  ∀ raw flag key tier ru_base,
    _parse_rank_token raw = Ok (key, tier, ru_base) →
    ∃ names avg v final_ru,
      compute_average_details [raw; raw; raw; raw; raw] flag
      = Ok (names, [v; v; v; v; v], avg, final_ru)
      ∧ token_value flag raw = Ok v
      ∧ _number_to_ru v flag = Ok final_ru
      ∧ (ordinary_rank key tier ∨ flag = true → rank_label key tier = Ok final_ru)
      ∧ (key = "radiant"%string → flag = false → final_ru = u "Иммортал 3").
Proof.
  intros raw flag key tier ru_base Hp.
  assert (Hfe : first_error [raw; raw; raw; raw; raw] = None).
  { apply first_error_None. repeat constructor; by rewrite Hp. }
  destruct (compute_average_details_trace [raw; raw; raw; raw; raw] flag
              eq_refl Hfe)
    as (names & vals & avg & r & label & Hs & Hvs & _ & _ & _ & _ & Hnear & _
        & Hi).
  apply parse_rank_token_ok in Hp as Hv. destruct Hv as [Hv _].
  destruct (valid_rank_value flag key tier Hv) as (v & Hval & _).
  assert (Htv : token_value flag raw = Ok v)
    by (unfold token_value; rewrite Hp; exact Hval).
  assert (Hvals : vals = [v; v; v; v; v]).
  { apply repeat_five; [by rewrite <- (Forall2_length _ _ _ Hvs) |].
    apply token_values_map in Hvs. subst vals. unfold value_of.
    cbn [map]. rewrite Htv. repeat constructor. }
  subst vals.
  assert (Hr : r = v).
  { rewrite Hnear. rewrite !sum_cons. unfold sum. cbn [foldl].
    replace (2 * (v + (v + (v + (v + (v + 0))))) + 5) with (5 + v * 10) by lia.
    rewrite Z.div_add by lia. reflexivity. }
  clear Hnear. subst r. exists names, avg, v, label.
  split; [exact Hs |]. split; [exact Htv |]. split; [exact Hi |].
  split.
  - intros Hd. destruct (valid_rank_roundtrips key tier flag Hv Hd)
      as (n & Hn & Hl).
    rewrite Hval in Hn. injection Hn as <-. rewrite <- Hl. exact Hi.
  - intros -> ->. vm_compute in Hval. injection Hval as <-.
    vm_compute in Hi. injection Hi as <-. vm_compute. reflexivity.
Qed.

Lemma compute_average_details_uniform_witness :
  ∃ names avg v final_ru,
    compute_average_details
      [u "Radiant"; u "Radiant"; u "Radiant"; u "Radiant"; u "Radiant"] false
    = Ok (names, [v; v; v; v; v], avg, final_ru)
    ∧ token_value false (u "Radiant") = Ok v
    ∧ _number_to_ru v false = Ok final_ru
    ∧ (ordinary_rank "radiant" None ∨ false = true
       → rank_label "radiant" None = Ok final_ru)
    ∧ ("radiant"%string = "radiant"%string → false = false
       → final_ru = u "Иммортал 3").
Proof.
  apply (compute_average_details_uniform (u "Radiant") false "radiant" None
           (u "Радиант")).
  vm_compute. reflexivity.
Defined.

Lemma Forall2_token_labels flag ranks names vals :
  Forall2 (fun raw n => token_label raw = Ok n) ranks names →
  Forall2 (fun raw v => token_value flag raw = Ok v) ranks vals →
  Forall2 (fun n v => token_value flag n = Ok v) names vals
  ∧ Forall2 (fun n n' => token_label n = Ok n') names names.
Proof.
  intros Hn. revert vals.
  induction Hn as [| raw n ranks names Hl _ IH]; intros vals Hv.
  - apply Forall2_nil_inv_l in Hv as ->. split; constructor.
  - apply Forall2_cons_inv_l in Hv as (v & vals' & Hv & Hvs & ->).
    destruct (IH vals' Hvs) as [IH1 IH2].
    destruct (token_label_fixed raw n Hl) as [Hfix Hsame].
    split; constructor; try assumption. rewrite Hsame. exact Hv.
Qed.

(** X11: the normalized labels the aggregator returns are a fixed point:
    run again on its own five labels, under the same flag, it returns the
    same labels, values, mean and final label. *)
Theorem compute_average_details_normalized_again :
  ∀ ranks flag names vals avg final_ru,
    compute_average_details ranks flag = Ok (names, vals, avg, final_ru) →
    compute_average_details names flag = Ok (names, vals, avg, final_ru).
Proof.
  intros ranks flag names vals avg final_ru Hc.
  destruct (compute_average_details_Ok_inv _ _ _ Hc) as [Hlen Hfe].
  destruct (compute_average_details_trace ranks flag Hlen Hfe)
    as (? & ? & ? & r & ? & Hs & Hvs & Hns & _ & Ha & Hr & Hnear & _ & Hi).
  rewrite Hs in Hc. injection Hc as -> -> -> ->.
  destruct (Forall2_token_labels flag ranks names vals Hns Hvs) as [Hnv Hnn].
  assert (Hlen' : length names = 5%nat)
    by (by rewrite <- (Forall2_length _ _ _ Hns)).
  assert (Hfe' : first_error names = None).
  { apply first_error_None. clear -Hnv.
    induction Hnv as [| n v names vals Hv _ IH]; constructor; [| exact IH].
    by eapply token_ok_parses. }
  destruct (compute_average_details_trace names flag Hlen' Hfe')
    as (names' & vals' & avg' & r' & label' & Hs' & Hvs' & Hns' & _ & Ha' & Hr'
        & Hnear' & _ & Hi').
  apply token_values_map in Hvs', Hnv. apply token_labels_map in Hns', Hnn.
  rewrite <- Hnv in Hvs'. rewrite <- Hnn in Hns'. subst vals' names'.
  rewrite Ha in Ha'. injection Ha' as <-.
  rewrite Hr in Hr'. injection Hr' as <-.
  rewrite Hi in Hi'. injection Hi' as <-. exact Hs'.
Qed.

Lemma compute_average_details_normalized_again_witness :
  compute_average_details
    [u "Алмаз 1"; u "Асцендант 1"; u "Бронза 1"; u "Серебро 1"; u "Золото 1"]
    true
  = Ok ([u "Алмаз 1"; u "Асцендант 1"; u "Бронза 1"; u "Серебро 1";
         u "Золото 1"],
        [16; 19; 4; 7; 10],
        S754_finite false 6305039478318694 (-49),
        u "Золото 2").
Proof.
  apply (compute_average_details_normalized_again
           [u "д1"; u "аск1"; u "б1"; u "с1"; u "г1"] true).
  vm_compute. reflexivity.
Defined.

(* ===================================================================== *)
(** ** Normaliser output, alias table, forward mapping: edge behaviour     *)
(* ===================================================================== *)

(** The normaliser over an arbitrary lower-casing function. *)
Definition clean_token_with (lower : pystr → pystr) (s : pystr) : pystr :=
  remove_separators (Unicode.replace1 0x451 0x435 (lower (Unicode.strip s))).

(** X12: the normalized token contains no space, tab, hyphen, period or
    underscore and no U+0451. This holds whatever [str.lower()] does to the
    text: it is stated for the normaliser over any lower-casing function,
    and [_clean_token] is the normaliser over [Unicode.lower]. *)
Theorem clean_token_chars :
  (∀ s, _clean_token s = clean_token_with Unicode.lower s)
  ∧ (∀ (lower : pystr → pystr) s c,
       c ∈ clean_token_with lower s →
       (c ≠ 0x20 ∧ c ≠ 0x09 ∧ c ≠ 0x2D ∧ c ≠ 0x2E ∧ c ≠ 0x5F)%N
       ∧ (c ≠ 0x451)%N).
Proof.
  split; [reflexivity |].
  intros lower s c. unfold clean_token_with, remove_separators.
  intros H. apply list_elem_of_filter in H as [Hsep H].
  split.
  - unfold is_separator in Hsep.
    repeat (apply orb_false_elim in Hsep as [Hsep ?]).
    repeat match goal with H : (_ =? _)%N = false |- _ =>
      apply N.eqb_neq in H end. by repeat split.
  - unfold Unicode.replace1 in H.
    apply list_elem_of_fmap in H as (c0 & -> & _).
    destruct (N.eqb_spec c0 0x451) as [_ | Hne]; [discriminate | exact Hne].
Qed.

Lemma clean_token_chars_witness :
  (0x435%N ∈ _clean_token (u " Сё-ребро. 1"))
  ∧ (0x451%N ∈ u " Сё-ребро. 1")
  ∧ (0x435 ≠ 0x2E)%N ∧ (0x435 ≠ 0x451)%N.
Proof.
  assert (H : 0x435%N ∈ _clean_token (u " Сё-ребро. 1"))
    by (refine (bool_decide_unpack _ _); vm_compute; exact I).
  split; [exact H |].
  split; [refine (bool_decide_unpack _ _); vm_compute; exact I |].
  rewrite (proj1 clean_token_chars) in H.
  destruct (proj2 clean_token_chars _ _ _ H) as ((_ & _ & _ & H1 & _) & H2).
  split; [exact H1 | exact H2].
Defined.

Definition registered (nm : pystr) (key : string) : Prop :=
  Exists (fun kn => kn.1 = key ∧ nm ∈ kn.2) ALIASES.

#[global] Instance registered_dec nm key : Decision (registered nm key).
Proof. unfold registered. apply _. Defined.

Lemma alias_to_key_registered :
  map_Forall (fun nm key => registered nm key) ALIAS_TO_KEY.
Proof.
  apply (@bool_decide_unpack _ (map_Forall_dec _ _)). vm_compute. exact I.
Qed.

Lemma alias_to_key_size : size ALIAS_TO_KEY = 38%nat.
Proof. vm_compute. reflexivity. Qed.

(** X13: the two loops that fill [ALIAS_TO_KEY] make it the union of the
    alias sets: a string is mapped to a family exactly when it is in the
    family's set of [ALIASES]. No alias is in two sets, the table has the 38
    aliases as keys, and every family it maps to has a name in [RU_NAME]. *)
Theorem alias_to_key_lookup :
  (∀ nm key,
     ALIAS_TO_KEY !! nm = Some key ↔
     ∃ names, (key, names) ∈ ALIASES ∧ nm ∈ names)
  ∧ NoDup (flat_map snd ALIASES)
  ∧ size ALIAS_TO_KEY = length (flat_map snd ALIASES)
  ∧ (∀ nm key, ALIAS_TO_KEY !! nm = Some key → is_Some (RU_NAME !! key)).
Proof.
  split; [| split; [exact aliases_NoDup | split]].
  - intros nm key. split.
    + intros H. pose proof (alias_to_key_registered _ _ H) as Hr.
      unfold registered in Hr. apply Exists_exists in Hr
        as ([key' names] & Hin & Hk & Hn). cbn [fst snd] in Hk, Hn.
      subst key'. by exists names.
    + intros (names & Hk & Hn).
      pose proof (proj1 (Forall_forall _ _) alias_lookup_registered _ Hk) as Hf.
      cbv beta iota in Hf. exact (proj1 (Forall_forall _ _) Hf _ Hn).
  - rewrite alias_to_key_size. vm_compute. reflexivity.
  - intros nm key H. pose proof (alias_values_known _ _ H) as Hk.
    destruct (known_key_cases key Hk) as (_ & ru & Hru & _). by exists ru.
Qed.

Lemma index_from_None l x i : x ∉ l → index_from l x i = None.
Proof.
  revert i. induction l as [| y l IH]; intros i Hx; [reflexivity |].
  cbn [index_from]. apply not_elem_of_cons in Hx as [Hne Hx].
  destruct (decide (y = x)) as [-> | _]; [done | by apply IH].
Qed.

(** X14: what the forward mapping does outside the structured ranks. For a
    family of [ORDER] without sub-tier it raises a TypeError; for a key that
    is neither in [ORDER] nor the top family it raises a ValueError, with or
    without sub-tier; for the top family it ignores the sub-tier; and it does
    not check the range of the sub-tier: the family of index i with any
    integer t gives i*3 + t, so that iron with 4 and bronze with 1 get the
    same value. *)
Theorem rank_to_number_edges :
  (∀ key flag,
     key ∈ ORDER → _rank_to_number key None flag = Raise TypeError)
  ∧ (∀ key tier flag,
       key ∉ ORDER → key ≠ "radiant"%string →
       ∃ msg, _rank_to_number key tier flag = Raise (ValueError msg))
  ∧ (∀ tier flag, _rank_to_number "radiant" tier flag = Ok (ceiling flag))
  ∧ (∀ (i : nat) key t flag,
       ORDER !! i = Some key →
       _rank_to_number key (Some t) flag = Ok (Z.of_nat i * 3 + t))
  ∧ (∀ flag, _rank_to_number "iron" (Some 4) flag
             = _rank_to_number "bronze" (Some 1) flag).
Proof.
  split.
  { intros key flag Hk. apply elem_of_ORDER in Hk as [i Hi].
    case_order Hi; reflexivity. }
  split.
  { intros key tier flag Hk Hr. unfold _rank_to_number.
    destruct (decide (key = "radiant"%string)) as [E | _]; [destruct (Hr E) |].
    unfold list_index. rewrite (index_from_None _ _ _ Hk).
    eexists. reflexivity. }
  split; [intros tier flag; reflexivity |].
  split; [| intros flag; reflexivity].
  intros i key t flag Hi. case_order Hi; reflexivity.
Qed.

(* ===================================================================== *)
(** ** Splitting the command-line argument                                 *)
(* ===================================================================== *)

(** Splitting a string at every character that satisfies [P]; the pieces
    between two such characters may be empty. *)
Fixpoint split_at (P : N → bool) (s : pystr) : list pystr :=
  match s with
  | [] => [[]]
  | c :: r =>
    if P c then [] :: split_at P r
    else match split_at P r with
         | w :: ws => (c :: w) :: ws
         | [] => [[c]]
         end
  end.

Definition is_comma (c : N) : bool := (c =? 0x2C)%N.

(** [s.split(",")]. *)
Definition str_split_comma (s : pystr) : list pystr := split_at is_comma s.

(** [s.split()]: the maximal runs of characters that are not white space. *)
Definition str_split (s : pystr) : list pystr :=
  filter (fun p => p ≠ []) (split_at Unicode.is_space s).

(** [sep.join(items)]. *)
Fixpoint str_join (sep : pystr) (items : list pystr) : pystr :=
  match items with
  | [] => []
  | [x] => x
  | x :: rest => x ++ sep ++ str_join sep rest
  end.

Definition _split_cli_ranks_arg (arg : pystr) : list pystr :=
  let parts :=
    if existsb is_comma arg
    then map Unicode.strip (str_split_comma arg)
    else filter (fun p => Unicode.strip p ≠ []) (str_split arg) in
  filter (fun p => p ≠ []) parts.

Lemma split_at_pieces P s w :
  w ∈ split_at P s → Forall (fun c => P c = false ∧ c ∈ s) w.
Proof.
  revert w. induction s as [| c r IH]; intros w; cbn [split_at].
  - intros H. apply list_elem_of_singleton in H as ->. constructor.
  - destruct (P c) eqn:Hc.
    + intros H. apply elem_of_cons in H as [-> | H]; [constructor |].
      eapply Forall_impl; [exact (IH _ H) |].
      intros x [Hx Hin]. split; [exact Hx | by right].
    + destruct (split_at P r) as [| w0 ws] eqn:Hs.
      * intros H. apply list_elem_of_singleton in H as ->.
        constructor; [| constructor]. split; [exact Hc | by left].
      * intros H. apply elem_of_cons in H as [-> | H].
        -- constructor; [split; [exact Hc | by left] |].
           eapply Forall_impl; [apply IH; by left |].
           intros x [Hx Hin]. split; [exact Hx | by right].
        -- eapply Forall_impl; [apply IH; by right |].
           intros x [Hx Hin]. split; [exact Hx | by right].
Qed.

Section StripFacts.
Import Unicode.

Lemma lstrip_head s :
  match lstrip s with [] => True | c :: _ => is_space c = false end.
Proof.
  induction s as [| c s IH]; [exact I |].
  cbn [lstrip]. destruct (is_space c) eqn:E; [exact IH | exact E].
Qed.

Lemma lstrip_fixed c s : is_space c = false → lstrip (c :: s) = c :: s.
Proof. intros E. cbn [lstrip]. by rewrite E. Qed.

Lemma lstrip_idem s : lstrip (lstrip s) = lstrip s.
Proof.
  pose proof (lstrip_head s) as H. destruct (lstrip s) as [| c r]; [reflexivity |].
  by apply lstrip_fixed.
Qed.

Lemma lstrip_subset s c : c ∈ lstrip s → c ∈ s.
Proof.
  induction s as [| y s IH]; cbn [lstrip]; [done |].
  destruct (is_space y); [| done]. intros H. right. by apply IH.
Qed.

Lemma rstrip_subset s c : c ∈ rstrip s → c ∈ s.
Proof.
  unfold rstrip. intros H.
  apply list_elem_of_In, in_rev, list_elem_of_In, lstrip_subset in H.
  by apply list_elem_of_In, in_rev, list_elem_of_In in H.
Qed.

Lemma strip_subset s c : c ∈ strip s → c ∈ s.
Proof. unfold strip. intros H. by apply lstrip_subset, rstrip_subset. Qed.

Lemma rstrip_idem s : rstrip (rstrip s) = rstrip s.
Proof. unfold rstrip. by rewrite rev_involutive, lstrip_idem. Qed.

Lemma rstrip_cons c s : is_space c = false → rstrip (c :: s) = c :: rstrip s.
Proof.
  intros E. unfold rstrip. cbn [rev]. rewrite lstrip_app.
  destruct (lstrip (rev s)) as [| d l].
  - by rewrite lstrip_fixed.
  - by rewrite rev_app_distr.
Qed.

Lemma strip_idem s : strip (strip s) = strip s.
Proof.
  unfold strip. pose proof (lstrip_head s) as H.
  destruct (lstrip s) as [| c r]; [reflexivity |].
  rewrite (rstrip_cons c r H), (lstrip_fixed c _ H), (rstrip_cons c _ H).
  by rewrite rstrip_idem.
Qed.

Lemma strip_no_space s :
  Forall (fun c => is_space c = false) s → strip s = s.
Proof.
  unfold strip. induction 1 as [| c s Hc Hs IH]; [reflexivity |].
  rewrite (lstrip_fixed c s Hc), (rstrip_cons c s Hc). f_equal.
  destruct s as [| d s]; [reflexivity |].
  apply Forall_cons in Hs as [Hd _].
  by rewrite (lstrip_fixed d s Hd) in IH.
Qed.

End StripFacts.

Lemma existsb_is_comma arg :
  existsb is_comma arg = true ↔ 0x2C%N ∈ arg.
Proof.
  rewrite existsb_exists. split.
  - intros (c & Hin & Hc). apply N.eqb_eq in Hc as ->. by apply list_elem_of_In.
  - intros H. exists 0x2C%N. split; [by apply list_elem_of_In | reflexivity].
Qed.

(** X15: every fragment [_split_cli_ranks_arg] returns is non-empty,
    contains no comma, and has no white space at either end; when the
    argument has no comma a fragment contains no white space at all. Every
    character of a fragment is a character of the argument. *)
Theorem split_cli_ranks_arg_fragments :
  ∀ arg p,
    p ∈ _split_cli_ranks_arg arg →
    p ≠ []
    ∧ ¬ (0x2C%N ∈ p)
    ∧ Unicode.strip p = p
    ∧ (¬ (0x2C%N ∈ arg) → Forall (fun c => Unicode.is_space c = false) p)
    ∧ Forall (fun c => c ∈ arg) p.
Proof.
  intros arg p. unfold _split_cli_ranks_arg. cbv zeta.
  intros H. apply list_elem_of_filter in H as [Hne H].
  split; [exact Hne |].
  destruct (existsb is_comma arg) eqn:Hc.
  - apply list_elem_of_fmap in H as (w & -> & Hw).
    pose proof (split_at_pieces _ _ _ Hw) as Hp.
    assert (Hsub : Forall (fun c => is_comma c = false ∧ c ∈ arg)
                          (Unicode.strip w)).
    { apply Forall_forall. intros c Hin. apply strip_subset in Hin.
      exact (proj1 (Forall_forall _ _) Hp c Hin). }
    split.
    { intros Hin. pose proof (proj1 (Forall_forall _ _) Hsub _ Hin) as [E _].
      discriminate E. }
    split; [apply strip_idem |]. split.
    { intros Hn. apply existsb_is_comma in Hc. destruct (Hn Hc). }
    eapply Forall_impl; [exact Hsub |]. by intros c [_ Hin].
  - apply list_elem_of_filter in H as [_ H].
    unfold str_split in H. apply list_elem_of_filter in H as [_ H].
    pose proof (split_at_pieces _ _ _ H) as Hp.
    assert (Hnc : ¬ (0x2C%N ∈ arg)).
    { intros Hin. apply existsb_is_comma in Hin. rewrite Hin in Hc.
      discriminate Hc. }
    assert (Hsp : Forall (fun c => Unicode.is_space c = false) p).
    { eapply Forall_impl; [exact Hp |]. by intros c [E _]. }
    split.
    { intros Hin. pose proof (proj1 (Forall_forall _ _) Hp _ Hin) as [_ Ha].
      by apply Hnc. }
    split; [by apply strip_no_space |]. split; [intros _; exact Hsp |].
    eapply Forall_impl; [exact Hp |]. by intros c [_ Hin].
Qed.

Lemma split_cli_ranks_arg_fragments_witness :
  (u "б 2" ∈ _split_cli_ranks_arg (u "д1 , б 2,,г3"))
  ∧ u "б 2" ≠ [] ∧ ¬ (0x2C%N ∈ u "б 2") ∧ Unicode.strip (u "б 2") = u "б 2".
Proof.
  assert (H : u "б 2" ∈ _split_cli_ranks_arg (u "д1 , б 2,,г3"))
    by (refine (bool_decide_unpack _ _); vm_compute; exact I).
  split; [exact H |].
  pose proof (split_cli_ranks_arg_fragments _ _ H) as (H1 & H2 & H3 & _).
  split; [exact H1 |]. split; [exact H2 | exact H3].
Defined.

Lemma split_at_none P w :
  Forall (fun c => P c = false) w → split_at P w = [w].
Proof.
  induction 1 as [| c w Hc _ IH]; [reflexivity |].
  cbn [split_at]. by rewrite Hc, IH.
Qed.

Lemma split_at_app_sep P w c r :
  Forall (fun c => P c = false) w → P c = true →
  split_at P (w ++ c :: r) = w :: split_at P r.
Proof.
  intros Hw Hc. induction Hw as [| x w Hx _ IH].
  - cbn [app split_at]. by rewrite Hc.
  - cbn [app split_at]. by rewrite Hx, IH.
Qed.

Lemma filter_all {A} (P : A → Prop) `{∀ x, Decision (P x)} (l : list A) :
  Forall P l → filter P l = l.
Proof.
  induction 1 as [| x l Hx _ IH]; [reflexivity |].
  by rewrite filter_cons_True, IH.
Qed.

Lemma spaces_no_comma ws :
  spaces ws → Forall (fun c => is_comma c = false) ws.
Proof.
  intros H. eapply Forall_impl; [exact H |]. intros c Hc. unfold is_comma.
  destruct (N.eqb_spec c 0x2C) as [-> |]; [discriminate Hc | reflexivity].
Qed.

(** An item of a comma-separated argument. *)
Definition cli_item (p : pystr) : Prop :=
  p ≠ [] ∧ ¬ (0x2C%N ∈ p) ∧ Unicode.strip p = p.

(** An item of a white-space-separated argument. *)
Definition cli_word (p : pystr) : Prop :=
  p ≠ [] ∧ ¬ (0x2C%N ∈ p) ∧ Forall (fun c => Unicode.is_space c = false) p.

Lemma not_comma_Forall p :
  ¬ (0x2C%N ∈ p) → Forall (fun c => is_comma c = false) p.
Proof.
  intros Hn. apply Forall_forall. intros c Hin. unfold is_comma.
  destruct (N.eqb_spec c 0x2C) as [-> |]; [destruct (Hn Hin) | reflexivity].
Qed.

Lemma strip_spaces_item ws1 p ws2 :
  spaces ws1 → spaces ws2 → p ≠ [] → Unicode.strip p = p →
  Unicode.strip (ws1 ++ p ++ ws2) = p.
Proof.
  intros H1 H2 Hne Hp. unfold Unicode.strip in *.
  rewrite lstrip_spaces by exact H1. rewrite lstrip_app.
  destruct (Unicode.lstrip p) as [| c l] eqn:E.
  - cbn in Hp. by subst p.
  - rewrite rstrip_spaces by exact H2. exact Hp.
Qed.

Lemma split_comma_join ws1 ws2 items pre :
  spaces ws1 → spaces ws2 → spaces pre →
  items ≠ [] → Forall cli_item items →
  map Unicode.strip
      (str_split_comma (pre ++ str_join (ws1 ++ [0x2C%N] ++ ws2) items))
  = items.
Proof.
  intros H1 H2 Hpre Hne Hall. revert pre Hpre.
  induction Hall as [| x items (Hx & Hc & Hs) Hall IH]; [done |].
  intros pre Hpre. unfold str_split_comma in *.
  destruct items as [| y rest].
  - cbn [str_join]. rewrite split_at_none.
    + cbn [map]. f_equal.
      rewrite <- (app_nil_r x) at 1.
      apply strip_spaces_item; [exact Hpre | constructor | exact Hx | exact Hs].
    + apply Forall_app. split; [by apply spaces_no_comma |].
      by apply not_comma_Forall.
  - change (str_join (ws1 ++ [0x2C%N] ++ ws2) (x :: y :: rest))
      with (x ++ (ws1 ++ [0x2C%N] ++ ws2)
              ++ str_join (ws1 ++ [0x2C%N] ++ ws2) (y :: rest)).
    replace (pre ++ x ++ (ws1 ++ [0x2C%N] ++ ws2)
               ++ str_join (ws1 ++ [0x2C%N] ++ ws2) (y :: rest))
      with ((pre ++ x ++ ws1)
              ++ 0x2C%N :: (ws2 ++ str_join (ws1 ++ [0x2C%N] ++ ws2) (y :: rest)))
      by (rewrite <- !app_assoc; reflexivity).
    rewrite split_at_app_sep; [| | reflexivity].
    + cbn [map]. rewrite (IH ltac:(done) ws2 H2). f_equal.
      apply strip_spaces_item; [exact Hpre | exact H1 | exact Hx | exact Hs].
    + apply Forall_app. split; [by apply spaces_no_comma |].
      apply Forall_app. split; [by apply not_comma_Forall |].
      by apply spaces_no_comma.
Qed.

Lemma join_has_comma sep x y rest :
  0x2C%N ∈ sep → existsb is_comma (str_join sep (x :: y :: rest)) = true.
Proof.
  intros H. apply existsb_is_comma.
  change (str_join sep (x :: y :: rest))
    with (x ++ sep ++ str_join sep (y :: rest)).
  apply elem_of_app. right. apply elem_of_app. by left.
Qed.

(** X16: a comma-separated argument is split back into its items: for two
    or more items, each non-empty, without comma and without white space at
    its ends, joined by a comma with any white space around it, the result
    is the list of the items. An item may contain white space inside. *)
Theorem split_cli_ranks_arg_comma_join :
  ∀ ws1 ws2 items,
    spaces ws1 → spaces ws2 →
    Forall cli_item items → (2 ≤ length items)%nat →
    _split_cli_ranks_arg (str_join (ws1 ++ [0x2C%N] ++ ws2) items) = items.
Proof.
  intros ws1 ws2 items H1 H2 Hall Hlen.
  destruct items as [| x [| y rest]]; [cbn in Hlen; lia | cbn in Hlen; lia |].
  unfold _split_cli_ranks_arg. cbv zeta.
  rewrite join_has_comma.
  2: { apply elem_of_app. right. apply elem_of_app. left. by left. }
  pose proof (split_comma_join ws1 ws2 (x :: y :: rest) [] H1 H2
                ltac:(constructor) ltac:(done) Hall) as Hs.
  change (map Unicode.strip
            (str_split_comma
               (str_join (ws1 ++ [0x2C%N] ++ ws2) (x :: y :: rest)))
          = x :: y :: rest) in Hs.
  rewrite Hs. apply filter_all.
  eapply Forall_impl; [exact Hall |]. by intros p (Hne & _).
Qed.

Lemma split_cli_ranks_arg_comma_join_witness :
  _split_cli_ranks_arg
    (str_join (u ", ") [u "д1"; u "а 1"; u "б1"; u "с-1"; u "г1"])
  = [u "д1"; u "а 1"; u "б1"; u "с-1"; u "г1"].
Proof.
  apply (split_cli_ranks_arg_comma_join [] (u " ")).
  - constructor.
  - repeat constructor.
  - repeat (constructor;
            [split; [discriminate |];
             split; [refine (bool_decide_unpack _ _); vm_compute; exact I
                    | vm_compute; reflexivity] |]).
    constructor.
  - cbn. lia.
Defined.

Lemma filter_nonempty_nil (l : list pystr) :
  filter (fun p => p ≠ []) ([] :: l) = filter (fun p => p ≠ []) l.
Proof. apply filter_cons_False. intros H. by apply H. Qed.

Lemma filter_nonempty_cons (w : pystr) (l : list pystr) :
  w ≠ [] →
  filter (fun p => p ≠ []) (w :: l) = w :: filter (fun p => p ≠ []) l.
Proof. intros H. by apply filter_cons_True. Qed.

Lemma str_split_spaces ws s : spaces ws → str_split (ws ++ s) = str_split s.
Proof.
  unfold str_split. induction 1 as [| c ws Hc _ IH]; [reflexivity |].
  cbn [app split_at]. rewrite Hc, filter_nonempty_nil. exact IH.
Qed.

Lemma str_split_all_spaces ws : spaces ws → str_split ws = [].
Proof.
  intros H. rewrite <- (app_nil_r ws), str_split_spaces by exact H.
  unfold str_split. cbn [split_at]. by rewrite filter_nonempty_nil.
Qed.

Lemma str_split_word w :
  w ≠ [] → Forall (fun c => Unicode.is_space c = false) w →
  str_split w = [w].
Proof.
  intros Hne Hw. unfold str_split. rewrite split_at_none by exact Hw.
  by rewrite filter_nonempty_cons.
Qed.

Lemma str_split_word_space w c s :
  w ≠ [] → Forall (fun c => Unicode.is_space c = false) w →
  Unicode.is_space c = true →
  str_split (w ++ c :: s) = w :: str_split s.
Proof.
  intros Hne Hw Hc. unfold str_split.
  rewrite split_at_app_sep by assumption. by rewrite filter_nonempty_cons.
Qed.

Lemma str_split_join ws items pre post :
  spaces ws → ws ≠ [] → spaces pre → spaces post →
  Forall cli_word items →
  str_split (pre ++ str_join ws items ++ post) = items.
Proof.
  intros Hws Hne Hpre Hpost Hall. revert pre Hpre.
  induction Hall as [| x items (Hx & _ & Hsp) Hall IH]; intros pre Hpre.
  - cbn [str_join app]. apply str_split_all_spaces.
    apply Forall_app. by split.
  - rewrite str_split_spaces by exact Hpre.
    destruct items as [| y rest].
    + cbn [str_join]. destruct post as [| c post].
      * rewrite app_nil_r. by apply str_split_word.
      * apply Forall_cons in Hpost as [Hc Hpost].
        rewrite str_split_word_space by assumption.
        by rewrite str_split_all_spaces.
    + change (str_join ws (x :: y :: rest))
        with (x ++ ws ++ str_join ws (y :: rest)).
      destruct ws as [| c ws']; [done |].
      apply Forall_cons in Hws as Hws'. destruct Hws' as [Hc Hws'].
      rewrite <- !app_assoc. cbn [app].
      rewrite str_split_word_space by assumption.
      f_equal. apply (IH ws' Hws').
Qed.

(** X17: a white-space-separated argument is split back into its items:
    for any number of items, each non-empty and without comma or white
    space, joined by a non-empty run of white space, with any white space
    before and after, the result is the list of the items. *)
Theorem split_cli_ranks_arg_space_join :
  ∀ ws items pre post,
    spaces ws → ws ≠ [] → spaces pre → spaces post →
    Forall cli_word items →
    _split_cli_ranks_arg (pre ++ str_join ws items ++ post) = items.
Proof.
  intros ws items pre post Hws Hne Hpre Hpost Hall.
  unfold _split_cli_ranks_arg. cbv zeta.
  pose proof (str_split_join ws items pre post Hws Hne Hpre Hpost Hall) as Hs.
  assert (Hnc : existsb is_comma (pre ++ str_join ws items ++ post) = false).
  { destruct (existsb is_comma _) eqn:E; [| reflexivity].
    apply existsb_is_comma in E.
    assert (Hfrag : Forall (fun p => ¬ (0x2C%N ∈ p)) items)
      by (eapply Forall_impl; [exact Hall |]; by intros p (_ & H & _)).
    assert (Hsp : ∀ l, spaces l → ¬ (0x2C%N ∈ l)).
    { intros l Hl Hin. pose proof (proj1 (Forall_forall _ _) Hl _ Hin) as Hc.
      discriminate Hc. }
    exfalso. clear Hs Hall.
    apply elem_of_app in E as [E | E]; [by apply (Hsp pre) |].
    apply elem_of_app in E as [E | E]; [| by apply (Hsp post)].
    induction Hfrag as [| x items Hx Hfrag IH]; [by apply elem_of_nil in E |].
    destruct items as [| y rest]; [by apply Hx |].
    change (str_join ws (x :: y :: rest))
      with (x ++ ws ++ str_join ws (y :: rest)) in E.
    apply elem_of_app in E as [E | E]; [by apply Hx |].
    apply elem_of_app in E as [E | E]; [by apply (Hsp ws) | by apply IH]. }
  rewrite Hnc, Hs.
  rewrite (filter_all (fun p => Unicode.strip p ≠ []) items).
  - apply filter_all. eapply Forall_impl; [exact Hall |]. by intros p (H & _).
  - eapply Forall_impl; [exact Hall |]. intros p (H & _ & Hsp).
    by rewrite strip_no_space.
Qed.

Lemma split_cli_ranks_arg_space_join_witness :
  _split_cli_ranks_arg
    (u " " ++ str_join (u "  ")
                [u "diamond2"; u "ascendant3"; u "иммо1"; u "gold3";
                 u "platinum1"] ++ [0x0A%N])
  = [u "diamond2"; u "ascendant3"; u "иммо1"; u "gold3"; u "platinum1"].
Proof.
  apply (split_cli_ranks_arg_space_join (u "  ")).
  - repeat constructor.
  - discriminate.
  - repeat constructor.
  - repeat constructor.
  - repeat (constructor;
            [split; [discriminate |];
             split; [refine (bool_decide_unpack _ _); vm_compute; exact I
                    | refine (bool_decide_unpack _ _); vm_compute; exact I] |]).
    constructor.
Defined.

(* ===================================================================== *)
(** ** Report and entry point                                              *)
(* ===================================================================== *)

(** The standard streams. [w_stdin] holds the lines still to be read,
    [w_stdout] and [w_stderr] the text written so far, [w_prompts] the
    prompts [input()] has shown (which stream they go to depends on the
    console). *)
Record world : Type := World {
  w_stdin : list pystr;
  w_stdout : pystr;
  w_stderr : pystr;
  w_prompts : list pystr;
}.

(** [print(s)] and [print(s, file=sys.stderr)]. *)
Definition print_out (s : pystr) (w : world) : world :=
  {| w_stdin := w_stdin w; w_stdout := w_stdout w ++ s ++ [0x0A%N];
     w_stderr := w_stderr w; w_prompts := w_prompts w |}.

Definition print_err (s : pystr) (w : world) : world :=
  {| w_stdin := w_stdin w; w_stdout := w_stdout w;
     w_stderr := w_stderr w ++ s ++ [0x0A%N]; w_prompts := w_prompts w |}.

(** [input(prompt)]: [None] stands for the EOFError at the end of the
    input. *)
Definition input (prompt : pystr) (w : world) : option pystr * world :=
  let w' := {| w_stdin := tail (w_stdin w); w_stdout := w_stdout w;
               w_stderr := w_stderr w;
               w_prompts := w_prompts w ++ [prompt] |} in
  (head (w_stdin w), w').

(** Rounding of [a / 2^k] to the nearest integer, ties to even. *)
Definition round_half_even_shift (a k : Z) : Z :=
  let q := Z.shiftr a k in
  let r := a - Z.shiftl q k in
  let h := Z.shiftl 1 (k - 1) in
  if (h <? r) || ((r =? h) && Z.odd q) then q + 1 else q.

(** The format [:.2f] of a float: the value rounded to two decimals,
    correctly, ties to even. *)
Definition format_2f (x : spec_float) : pystr :=
  match x with
  | S754_nan => u "nan"
  | S754_infinity s => (if s then u "-" else []) ++ u "inf"
  | S754_zero s => (if s then u "-" else []) ++ u "0.00"
  | S754_finite s m e =>
    let hundredths :=
      if 0 <=? e then Z.shiftl (Z.pos m * 100) e
      else round_half_even_shift (Z.pos m * 100) (- e) in
    (if s then u "-" else [])
    ++ py_str_int (hundredths `div` 100) ++ u "."
    ++ py_str_int ((hundredths `mod` 100) `div` 10)
    ++ py_str_int (hundredths `mod` 10)
  end.

Definition _print_cli_report (norm_ru : list pystr) (values : list Z)
    (avg_value : spec_float) (final_ru : pystr) (include_radiant : bool)
    (w : world) : world :=
  let w := print_out (u "Нормализованные звания (RU):") w in
  let w := print_out (u "  " ++ str_join (u ", ") norm_ru) w in
  let w := print_out (u "Числовые значения:") w in
  let w := print_out (u "  " ++ str_join (u ", ") (map py_str_int values)) w in
  let w := print_out (u "Среднее по шкале: " ++ format_2f avg_value) w in
  let w := print_out (u "Итоговое звание: " ++ final_ru) w in
  if negb include_radiant
  then print_out (u "(Примечание: Radiant отключен, трактуется как Immortal 3.)") w
  else w.

(** How a run of [main] ends: with a return value, with an exception that
    [main] does not catch, or with the EOFError of [input()]. *)
Inductive outcome : Type :=
  | Exit (code : Z)
  | Uncaught (e : exn)
  | EndOfInput.

(** The [try ... except ValueError] block around the aggregator, followed
    by the report; [main] has it twice. *)
Definition compute_and_report (items : list pystr) (include_radiant : bool)
    (w : world) : outcome * world :=
  match compute_average_details items include_radiant with
  | Raise (ValueError msg) => (Exit 2, print_err (u "Ошибка: " ++ msg) w)
  | Raise e => (Uncaught e, w)
  | Ok (norm_ru, values, avg_value, final_ru) =>
    (Exit 0,
     _print_cli_report norm_ru values avg_value final_ru include_radiant w)
  end.

(** The loop [for i in range(1, 6)] of the interactive mode, from [i] on. *)
Fixpoint read_inputs (n : nat) (i : Z) (inputs : list pystr) (w : world)
  : option (list pystr) * world :=
  match n with
  | O => (Some inputs, w)
  | S n' =>
    match input (u "Звание " ++ py_str_int i ++ u ": ") w with
    | (None, w') => (None, w')
    | (Some s, w') =>
      read_inputs n' (i + 1) (inputs ++ [Unicode.strip s]) w'
    end
  end.

Definition msg_main_count (n : nat) : pystr :=
  u "Ошибка: необходимо передать ровно 5 званий в --ranks, получено "
  ++ py_str_int (Z.of_nat n) ++ u ".".

Definition msg_interactive : pystr :=
  u "Интерактивный режим. Введите 5 званий (RU/EN, можно сокращения). Примеры: д1, аск1, бронза 2, ascendant3, иммо1, radiant".

(** [main] from the parsed arguments on: [args_ranks] is [args.ranks]
    ([None] when the option is absent) and [include_radiant] is
    [args.include_radiant]. *)
Definition main (args_ranks : option pystr) (include_radiant : bool)
    (w : world) : outcome * world :=
  match args_ranks with
  | Some (c :: r) =>
    let items := _split_cli_ranks_arg (c :: r) in
    if negb (length items =? 5)%nat
    then (Exit 2, print_err (msg_main_count (length items)) w)
    else compute_and_report items include_radiant w
  | _ =>
    let w := print_out msg_interactive w in
    match read_inputs 5 1 [] w with
    | (None, w') => (EndOfInput, w')
    | (Some inputs, w') => compute_and_report inputs include_radiant w'
    end
  end.

(** The mean [s / 5.0] is printed as the exact mean with two decimals. *)
Definition mean_prints_exactly (s : Z) : bool :=
  match Float.int_truediv s (Float.lit 5 0) with
  | Ok avg =>
    bool_decide (format_2f avg
                 = py_str_int (s `div` 5) ++ u "."
                   ++ py_str_int (2 * (s `mod` 5)) ++ u "0")
  | Raise _ => false
  end.

Lemma means_print_exactly :
  Forall (fun s => mean_prints_exactly s = true) (seqZ 0 126).
Proof. refine (bool_decide_unpack _ _). vm_compute. exact I. Qed.

(** X18: the mean the report prints is exact: on success of the
    aggregator, with s the sum of the five values, the float mean formatted
    with two decimals is the integer quotient of s by 5, a period, the digit
    2 * (s mod 5) and a zero, so that no float rounding shows. *)
Theorem report_mean_exact :
  ∀ ranks flag names vals avg final_ru,
    compute_average_details ranks flag = Ok (names, vals, avg, final_ru) →
    format_2f avg
    = py_str_int (sum vals `div` 5) ++ u "."
      ++ py_str_int (2 * (sum vals `mod` 5)) ++ u "0".
Proof.
  intros ranks flag names vals avg final_ru Hc.
  destruct (compute_average_details_Ok_inv _ _ _ Hc) as [Hlen Hfe].
  destruct (compute_average_details_trace ranks flag Hlen Hfe)
    as (? & ? & ? & r & ? & Hs & Hvs & _ & Hall & Ha & _).
  rewrite Hs in Hc. injection Hc as -> -> -> ->.
  pose proof (sum_in_scale flag vals Hall) as Hsum.
  rewrite <- (Forall2_length _ _ _ Hvs), Hlen in Hsum.
  pose proof (ceiling_le_25 flag) as Hc.
  assert (Hin : sum vals ∈ seqZ 0 126) by (apply elem_of_seqZ; lia).
  pose proof (proj1 (Forall_forall _ _) means_print_exactly _ Hin) as Hp.
  unfold mean_prints_exactly in Hp. rewrite Ha in Hp.
  exact (bool_decide_eq_true_1 _ Hp).
Qed.

Lemma report_mean_exact_witness :
  format_2f (S754_finite false 6305039478318694 (-49))
  = py_str_int (sum [16; 19; 4; 7; 10] `div` 5) ++ u "."
    ++ py_str_int (2 * (sum [16; 19; 4; 7; 10] `mod` 5)) ++ u "0".
Proof.
  apply (report_mean_exact
           [u "д1"; u "аск1"; u "б1"; u "с1"; u "г1"] true
           [u "Алмаз 1"; u "Асцендант 1"; u "Бронза 1"; u "Серебро 1";
            u "Золото 1"]
           [16; 19; 4; 7; 10] _ (u "Золото 2")).
  vm_compute. reflexivity.
Defined.

Lemma print_cli_report_streams names vals avg final_ru flag w :
  let w' := _print_cli_report names vals avg final_ru flag w in
  w_stdin w' = w_stdin w ∧ w_stderr w' = w_stderr w
  ∧ w_prompts w' = w_prompts w.
Proof. unfold _print_cli_report. destruct flag; repeat split. Qed.

Lemma compute_and_report_cases items flag w :
  length items = 5%nat →
  match first_error items with
  | None =>
    ∃ names vals avg final_ru,
      compute_average_details items flag = Ok (names, vals, avg, final_ru)
      ∧ compute_and_report items flag w
        = (Exit 0, _print_cli_report names vals avg final_ru flag w)
  | Some e =>
    ∃ raw msg,
      raw ∈ items ∧ _parse_rank_token raw = Raise (ValueError msg)
      ∧ e = ValueError msg
      ∧ (∀ k, msg ≠ msg_wrong_count k)
      ∧ compute_and_report items flag w
        = (Exit 2, print_err (u "Ошибка: " ++ msg) w)
  end.
Proof.
  intros Hlen. unfold compute_and_report.
  pose proof (compute_average_details_spec items flag Hlen) as Hs.
  destruct (first_error items) as [e |] eqn:Hfe.
  - rewrite Hs. destruct (first_error_Some _ _ Hfe) as (raw & Hin & Hraw).
    destruct (parse_rank_token_errors _ _ Hraw) as [-> | [ru ->]].
    + exists raw, (msg_unrecognized raw).
      repeat (split; [first [reflexivity | assumption] |]).
      split; [| reflexivity]. intros k E. symmetry in E.
      exact (msg_wrong_count_not_unrecognized _ _ E).
    + exists raw, (msg_missing_tier ru).
      repeat (split; [first [reflexivity | assumption] |]).
      split; [| reflexivity]. intros k E. symmetry in E.
      exact (msg_wrong_count_not_missing _ _ E).
  - destruct Hs as (names & vals & avg & r & label & -> & _).
    exists names, vals, avg, label. split; reflexivity.
Qed.

Lemma first_error_first items e :
  first_error items = Some e →
  ∃ pre raw post,
    items = pre ++ raw :: post
    ∧ Forall (fun r => is_ok (_parse_rank_token r) = true) pre
    ∧ _parse_rank_token raw = Raise e.
Proof.
  induction items as [| raw rest IH]; cbn [first_error]; intros H.
  - discriminate H.
  - destruct (_parse_rank_token raw) as [v | e0] eqn:Hp.
    + destruct (IH H) as (pre & raw' & post & -> & Hpre & Hraw).
      exists (raw :: pre), raw', post. split; [reflexivity |].
      split; [| exact Hraw]. constructor; [| exact Hpre].
      rewrite Hp. reflexivity.
    + injection H as ->. exists [], raw, rest.
      split; [reflexivity |]. split; [constructor | exact Hp].
Qed.

Lemma compute_and_report_fails items flag w e :
  length items = 5%nat →
  first_error items = Some e →
  ∃ pre raw post msg,
    items = pre ++ raw :: post
    ∧ Forall (fun r => is_ok (_parse_rank_token r) = true) pre
    ∧ _parse_rank_token raw = Raise (ValueError msg)
    ∧ e = ValueError msg
    ∧ (∀ k, msg ≠ msg_wrong_count k)
    ∧ compute_and_report items flag w
      = (Exit 2, print_err (u "Ошибка: " ++ msg) w).
Proof.
  intros Hlen Hfe.
  pose proof (compute_and_report_cases items flag w Hlen) as Hc.
  rewrite Hfe in Hc. destruct Hc as (_ & msg & _ & _ & He & Hm & Hc).
  destruct (first_error_first _ _ Hfe) as (pre & raw & post & Hi & Hpre & Hraw).
  exists pre, raw, post, msg. rewrite He in Hraw.
  repeat (split; [assumption |]). exact Hc.
Qed.

(** The text of the report: its lines, each followed by a line feed. *)
Definition report_lines (names : list pystr) (vals : list Z)
    (avg : spec_float) (final_ru : pystr) (flag : bool) : list pystr :=
  [u "Нормализованные звания (RU):";
   u "  " ++ str_join (u ", ") names;
   u "Числовые значения:";
   u "  " ++ str_join (u ", ") (map py_str_int vals);
   u "Среднее по шкале: " ++ format_2f avg;
   u "Итоговое звание: " ++ final_ru]
  ++ (if flag then []
      else [u "(Примечание: Radiant отключен, трактуется как Immortal 3.)"]).

Definition text_of_lines (ls : list pystr) : pystr :=
  flat_map (fun l => l ++ [0x0A%N]) ls.

Lemma print_cli_report_world names vals avg final_ru flag w :
  _print_cli_report names vals avg final_ru flag w
  = World (w_stdin w)
          (w_stdout w
           ++ text_of_lines (report_lines names vals avg final_ru flag))
          (w_stderr w) (w_prompts w).
Proof.
  unfold _print_cli_report, print_out, text_of_lines, report_lines.
  destruct flag;
    cbn [negb w_stdin w_stdout w_stderr w_prompts flat_map app];
    f_equal; rewrite <- ?app_assoc; reflexivity.
Qed.

(** X19: with a non-empty [--ranks] argument [main] reads no input and
    raises nothing. When the argument does not split into five fragments it
    returns 2 and appends its own count message, with a line feed, to the
    error stream; the aggregator is not called. With five fragments, when
    one of them does not parse it returns 2 and appends to the error stream
    the word for error, the parser's message for the first such fragment
    (never the aggregator's wrong-count message) and a line feed, writing
    nothing to the output stream; when all five parse it returns 0 and
    appends to the output stream the report of the aggregator's result,
    writing nothing to the error stream. *)
Theorem main_with_ranks :
  ∀ arg flag w,
    arg ≠ [] →
    (length (_split_cli_ranks_arg arg) ≠ 5%nat →
     main (Some arg) flag w
     = (Exit 2,
        World (w_stdin w) (w_stdout w)
              (w_stderr w
               ++ msg_main_count (length (_split_cli_ranks_arg arg))
               ++ [0x0A%N])
              (w_prompts w)))
    ∧ (length (_split_cli_ranks_arg arg) = 5%nat →
       ∀ e, first_error (_split_cli_ranks_arg arg) = Some e →
       ∃ pre raw post msg,
         _split_cli_ranks_arg arg = pre ++ raw :: post
         ∧ Forall (fun r => is_ok (_parse_rank_token r) = true) pre
         ∧ _parse_rank_token raw = Raise (ValueError msg)
         ∧ e = ValueError msg
         ∧ (∀ k, msg ≠ msg_wrong_count k)
         ∧ main (Some arg) flag w
           = (Exit 2,
              World (w_stdin w) (w_stdout w)
                    (w_stderr w ++ (u "Ошибка: " ++ msg) ++ [0x0A%N])
                    (w_prompts w)))
    ∧ (length (_split_cli_ranks_arg arg) = 5%nat →
       first_error (_split_cli_ranks_arg arg) = None →
       ∃ names vals avg final_ru,
         compute_average_details (_split_cli_ranks_arg arg) flag
         = Ok (names, vals, avg, final_ru)
         ∧ main (Some arg) flag w
           = (Exit 0,
              World (w_stdin w)
                    (w_stdout w
                     ++ text_of_lines
                          (report_lines names vals avg final_ru flag))
                    (w_stderr w) (w_prompts w))).
Proof.
  intros arg flag w Hne. destruct arg as [| c r]; [done |]. clear Hne.
  unfold main. cbv zeta. set (items := _split_cli_ranks_arg (c :: r)).
  split; [| split].
  - intros Hlen.
    destruct (Nat.eqb_spec (length items) 5) as [E | _]; [destruct (Hlen E) |].
    reflexivity.
  - intros Hlen e Hfe. rewrite Hlen. cbn [Nat.eqb negb].
    destruct (compute_and_report_fails items flag w e Hlen Hfe)
      as (pre & raw & post & msg & Hi & Hpre & Hp & He & Hm & ->).
    exists pre, raw, post, msg. repeat (split; [assumption |]). reflexivity.
  - intros Hlen Hfe. rewrite Hlen. cbn [Nat.eqb negb].
    pose proof (compute_and_report_cases items flag w Hlen) as Hc.
    rewrite Hfe in Hc. destruct Hc as (names & vals & avg & final_ru & Hc & ->).
    exists names, vals, avg, final_ru. split; [exact Hc |].
    by rewrite print_cli_report_world.
Qed.

Lemma main_with_ranks_witness :
  u "д1, аск1, б1, с1" ≠ []
  ∧ length (_split_cli_ranks_arg (u "д1, аск1, б1, с1")) ≠ 5%nat
  ∧ main (Some (u "д1, аск1, б1, с1")) true (World [] [] [] [])
    = (Exit 2, World [] [] ([] ++ msg_main_count 4 ++ [0x0A%N]) []).
Proof.
  split; [discriminate |].
  assert (Hlen : length (_split_cli_ranks_arg (u "д1, аск1, б1, с1")) ≠ 5%nat)
    by (vm_compute; lia).
  split; [exact Hlen |].
  exact (proj1 (main_with_ranks (u "д1, аск1, б1, с1") true (World [] [] [] [])
                  ltac:(discriminate)) Hlen).
Defined.




